(** * internal/cachevalue: a TTL cache of one value

    Shallow embedding of [internal/cachevalue/cache.go].  The methods of
    [Cache[T]] are written once, as programs over the atomic operations the
    Go code performs (atomic loads and stores, mutex operations, clock
    readings, the call of the refresh function, [go] and [defer]).  The
    programs are given a run-to-completion semantics ([exec], [run_call]),
    used for the properties of a single call, and a
    one-operation-at-a-time semantics ([step], [reachable]), used for the
    properties that depend on how goroutines interleave; [exec_steps]
    relates the two. *)

From Stdlib Require Import ZArith List Bool Lia.
Import ListNotations.
Local Open Scope Z_scope.

Set Implicit Arguments.

(** ** Go integers, durations and instants *)

Module GoTime.

(** Two's complement wrap-around of [int64] arithmetic. *)
Definition wrap64 (z : Z) : Z := (z + 2 ^ 63) mod 2 ^ 64 - 2 ^ 63.
Definition sub64 (a b : Z) : Z := wrap64 (a - b).
Definition mul64 (a b : Z) : Z := wrap64 (a * b).

Definition in_int64 (z : Z) : Prop := - 2 ^ 63 <= z < 2 ^ 63.

(** [time.Duration]: an [int64] count of nanoseconds. *)
Definition Duration := Z.
Definition minDuration : Duration := - 2 ^ 63.
Definition maxDuration : Duration := 2 ^ 63 - 1.
Definition Millisecond : Duration := 1000000.

(** [Duration.Milliseconds]: [int64(d) / 1e6], Go's division truncates
    toward zero. *)
Definition Milliseconds (d : Duration) : Z := Z.quot d 1000000.

(** [time.Time]: a wall-clock instant, in nanoseconds since the Unix
    epoch. *)
Definition Time := Z.

(** [Time.UnixMilli]: whole milliseconds since the epoch (rounded down),
    as an [int64]. *)
Definition Time_UnixMilli (t : Time) : Z := wrap64 (t / 1000000).

(** [time.UnixMilli(msec)]: the instant [msec] milliseconds after the
    epoch. *)
Definition UnixMilli (msec : Z) : Time := msec * 1000000.

(** [Time.Sub]: the difference of two instants, saturated to the range
    of [Duration]. *)
Definition Sub (t u : Time) : Duration :=
  if t - u <? minDuration then minDuration
  else if maxDuration <? t - u then maxDuration
  else t - u.

End GoTime.
Import GoTime.

(** ** The data of the package *)

(** [type Opts struct]. *)
Record Opts := mkOpts {
  ReturnLastGood : bool;
  NoWait : bool
}.

(** The ways a body can panic: [*v] on a nil [v], the call of a nil
    [t.updateFn], [Unlock] on a mutex that is not locked. *)
Inductive PanicKind :=
| NilDeref
| NilFuncCall
| UnlockOfUnlockedMutex.

(** Non-nil [error] values are those of [Err]; [nil] is [None]. *)
Definition error (Err : Type) : Type := option Err.
Definition nil (Err : Type) : error Err := None.

(** [p != nil]. *)
Definition isSome (A : Type) (o : option A) : bool :=
  match o with Some _ => true | None => false end.

(** ** Programs *)

(** The operations a method performs on the cache and on the runtime,
    each indexed by the type of its result.  [T] is the type parameter
    of [Cache[T]], [Ctx] stands for [context.Context]. *)
Inductive Op (T Err Ctx : Type) : Type -> Type :=
(* t.val.Load() *)
| ValLoad : Op T Err Ctx (option T)
(* t.val.Store(&v) *)
| ValStore (v : T) : Op T Err Ctx unit
(* t.lastUpdateMs.Load() *)
| LastUpdateMsLoad : Op T Err Ctx Z
(* t.lastUpdateMs.Store(ms) *)
| LastUpdateMsStore (ms : Z) : Op T Err Ctx unit
(* t.ttl *)
| ReadTTL : Op T Err Ctx Duration
(* t.opts *)
| ReadOpts : Op T Err Ctx Opts
(* t.updateFn(ctx) *)
| CallUpdateFn (ctx : Ctx) : Op T Err Ctx (T * error Err)
(* time.Now() *)
| TimeNow : Op T Err Ctx Time
(* t.updating.TryLock() *)
| TryLock : Op T Err Ctx bool
(* t.updating.Lock() *)
| Lock : Op T Err Ctx unit
(* t.updating.Unlock() *)
| Unlock : Op T Err Ctx unit.

Arguments ValLoad {T Err Ctx}.
Arguments ValStore {T Err Ctx} v.
Arguments LastUpdateMsLoad {T Err Ctx}.
Arguments LastUpdateMsStore {T Err Ctx} ms.
Arguments ReadTTL {T Err Ctx}.
Arguments ReadOpts {T Err Ctx}.
Arguments CallUpdateFn {T Err Ctx} ctx.
Arguments TimeNow {T Err Ctx}.
Arguments TryLock {T Err Ctx}.
Arguments Lock {T Err Ctx}.
Arguments Unlock {T Err Ctx}.

(** What a goroutine knows about [t.val]: [has] holds when it has seen or
    stored a non-nil pointer.  [learns] is what it knows after an
    operation, [consistent] what a result cannot contradict, [permitted]
    restricts the store of a timestamp to goroutines that know a value is
    stored. *)
Definition learns (T Err Ctx X : Type) (op : Op T Err Ctx X)
    : X -> bool -> bool :=
  match op in Op _ _ _ X0 return X0 -> bool -> bool with
  | ValLoad => fun v has => has || isSome v
  | ValStore _ => fun _ _ => true
  | _ => fun _ has => has
  end.

Definition consistent (T Err Ctx X : Type) (op : Op T Err Ctx X)
    : X -> bool -> Prop :=
  match op in Op _ _ _ X0 return X0 -> bool -> Prop with
  | ValLoad => fun v has => has = true -> isSome v = true
  | _ => fun _ _ => True
  end.

Definition permitted (T Err Ctx X : Type) (op : Op T Err Ctx X)
    (has : bool) : Prop :=
  match op with
  | LastUpdateMsStore _ => has = true
  | _ => True
  end.

(** The two stores. *)
Definition stores_value (T Err Ctx X : Type) (op : Op T Err Ctx X) : bool :=
  match op with
  | ValStore _ => true
  | _ => false
  end.

Definition stores_stamp (T Err Ctx X : Type) (op : Op T Err Ctx X) : bool :=
  match op with
  | LastUpdateMsStore _ => true
  | _ => false
  end.

(** A function body: return, panic, perform an operation, call another
    body, start a goroutine, or run a body with a deferred call. *)
Inductive Prog (T Err Ctx : Type) (R : Type) : Type :=
| Ret (r : R)
| Panic (why : PanicKind)
| Do {X : Type} (op : Op T Err Ctx X) (k : X -> Prog T Err Ctx R)
| Call {X : Type} (callee : Prog T Err Ctx X) (k : X -> Prog T Err Ctx R)
| Go (body : Prog T Err Ctx unit) (k : Prog T Err Ctx R)
| Defer (d : Prog T Err Ctx unit) (body : Prog T Err Ctx R).

Arguments Ret {T Err Ctx R} r.
Arguments Panic {T Err Ctx R} why.
Arguments Do {T Err Ctx R X} op k.
Arguments Call {T Err Ctx R X} callee k.
Arguments Go {T Err Ctx R} body k.
Arguments Defer {T Err Ctx R} d body.

Declare Scope prog_scope.
Delimit Scope prog_scope with prog.
Bind Scope prog_scope with Prog.
Notation "x <- op ;; k" := (Do op (fun x => k))
  (at level 61, op at next level, right associativity) : prog_scope.
Notation "'do' op ;; k" := (Do op (fun _ => k))
  (at level 61, op at next level, right associativity) : prog_scope.
Notation "x <- 'call' p ;; k" := (Call p (fun x => k))
  (at level 61, p at next level, right associativity) : prog_scope.

Section CacheValue.

(** The type parameter of [Cache[T]] and its zero value ([var empty T]). *)
Variable T : Type.
Variable zeroT : T.

(** Non-nil [error] values. *)
Variable Err : Type.

(** [context.Context], with the value [context.Background()]. *)
Variable Ctx : Type.
Variable Background : Ctx.

(** Whatever the refresh function reads and changes outside the cache. *)
Variable Env : Type.

Local Abbreviation error := (error Err).
Local Abbreviation nil := (nil Err).
Local Abbreviation Op := (Op T Err Ctx).
Local Abbreviation Prog := (Prog T Err Ctx).
Local Open Scope prog_scope.

(** [func(ctx context.Context) (T, error)]. *)
Definition UpdateFn := Ctx -> Env -> (T * error) * Env.

(** [type Cache[T any] struct].  A nil [updateFn] and a nil [val] are
    [None]; [Once] holds whether the [sync.Once] has run; [updating]
    holds whether the mutex is locked. *)
Record Cache := mkCache {
  updateFn : option UpdateFn;
  ttl : Duration;
  opts : Opts;
  Once : bool;
  val : option T;
  lastUpdateMs : Z;
  updating : bool
}.

Definition zeroOpts : Opts := mkOpts false false.

(** [func New[T any]() *Cache[T]]: the zero value of the struct. *)
Definition New : Cache :=
  mkCache None 0 zeroOpts false None 0 false.

(** [func NewFromFunc]: a struct literal that sets [ttl], [updateFn] and
    [opts]; every other field, [Once] included, keeps its zero value. *)
Definition NewFromFunc (ttl0 : Duration) (opts0 : Opts)
    (update : option UpdateFn) : Cache :=
  mkCache update ttl0 opts0 false None 0 false.

(** [func (t *Cache[T]) InitOnce]: [t.Once.Do] runs the assignments
    unless the [sync.Once] has already run. *)
Definition InitOnce (ttl0 : Duration) (opts0 : Opts)
    (update : option UpdateFn) (t : Cache) : Cache :=
  if Once t then t
  else mkCache update ttl0 opts0 true (val t) (lastUpdateMs t) (updating t).

Definition set_val (v : option T) (t : Cache) : Cache :=
  mkCache (updateFn t) (ttl t) (opts t) (Once t) v (lastUpdateMs t)
          (updating t).
Definition set_lastUpdateMs (ms : Z) (t : Cache) : Cache :=
  mkCache (updateFn t) (ttl t) (opts t) (Once t) (val t) ms (updating t).
Definition set_updating (b : bool) (t : Cache) : Cache :=
  mkCache (updateFn t) (ttl t) (opts t) (Once t) (val t) (lastUpdateMs t) b.

(** [*v]: a nil pointer panics. *)
Definition deref {R : Type} (v : option T) (k : T -> Prog R) : Prog R :=
  match v with
  | Some x => k x
  | None => Panic NilDeref
  end.

(** [func (t *Cache[T]) update(ctx context.Context) error]. *)
Definition update (ctx : Ctx) : Prog error :=
  r <- CallUpdateFn ctx ;;
  match snd r with
  | Some err =>
      o <- ReadOpts ;;
      if ReturnLastGood o then
        v <- ValLoad ;;
        if isSome v then Ret nil else Ret (Some err)
      else Ret (Some err)
  | None =>
      do ValStore (fst r) ;;
      now <- TimeNow ;;
      do LastUpdateMsStore (Time_UnixMilli now) ;;
      Ret nil
  end.

(** The goroutine of the stale window, lines 109-112:
    [go func() { defer t.updating.Unlock();
                 t.update(context.Background()) }()]. *)
Definition backgroundRefresh : Prog unit :=
  Defer (do Unlock ;; Ret tt)
        (_ <- call update Background ;; Ret tt).

(** Lines 128-134 of [GetWithCtx]: the refresh and the final load. *)
Definition refreshAndLoad (ctx : Ctx) : Prog (T * error) :=
  err <- call update ctx ;;
  match err with
  | Some e => Ret (zeroT, Some e)
  | None => v <- ValLoad ;; deref v (fun x => Ret (x, nil))
  end.

(** Lines 122-134 of [GetWithCtx]: what runs once the mutex is held. *)
Definition recheckAndRefresh (ctx : Ctx) (ttl0 : Duration)
    : Prog (T * error) :=
  ms <- LastUpdateMsLoad ;;
  now <- TimeNow ;;
  if Sub now (UnixMilli ms) <? ttl0 then
    v <- ValLoad ;;
    if isSome v then deref v (fun x => Ret (x, nil))
    else refreshAndLoad ctx
  else refreshAndLoad ctx.

(** Lines 108-114 of [GetWithCtx]: the stale value is returned, and a
    refresh is started in a goroutine when the mutex is free. *)
Definition serveStale (v : option T) : Prog (T * error) :=
  locked <- TryLock ;;
  if locked then Go backgroundRefresh (deref v (fun x => Ret (x, nil)))
  else deref v (fun x => Ret (x, nil)).

(** Lines 117-134 of [GetWithCtx]: the synchronous refresh. *)
Definition lockedRefresh (ctx : Ctx) (ttl0 : Duration) : Prog (T * error) :=
  do Lock ;;
  Defer (do Unlock ;; Ret tt) (recheckAndRefresh ctx ttl0).

(** [func (t *Cache[T]) GetWithCtx(ctx context.Context) (T, error)]. *)
Definition GetWithCtx (ctx : Ctx) : Prog (T * error) :=
  v <- ValLoad ;;
  ttl0 <- ReadTTL ;;
  vTime <- LastUpdateMsLoad ;;
  now <- TimeNow ;;
  let tNow := Time_UnixMilli now in
  if isSome v && (sub64 tNow vTime <? Milliseconds ttl0) then
    deref v (fun x => Ret (x, nil))
  else
    o <- ReadOpts ;;
    if NoWait o && isSome v
       && (sub64 tNow vTime <? mul64 (Milliseconds ttl0) 2) then
      serveStale v
    else lockedRefresh ctx ttl0.

(** [func (t *Cache[T]) Get() (T, error)]. *)
Definition Get : Prog (T * error) := GetWithCtx Background.

(** ** The state programs run in *)

(** The cache, the surroundings of the refresh function, the wall clock
    (the instant each successive reading of [time.Now()] returns, and
    how many readings were made), the contexts the refresh function was
    called with so far, and the goroutines started and not yet run. *)
Record World := mkWorld {
  cache : Cache;
  env : Env;
  clock : nat -> Time;
  reads : nat;
  calls : list Ctx;
  goroutines : list (Prog unit)
}.

Definition with_cache (f : Cache -> Cache) (w : World) : World :=
  mkWorld (f (cache w)) (env w) (clock w) (reads w) (calls w)
          (goroutines w).
Definition tick (w : World) : World :=
  mkWorld (cache w) (env w) (clock w) (S (reads w)) (calls w)
          (goroutines w).
Definition called (ctx : Ctx) (e : Env) (w : World) : World :=
  mkWorld (cache w) e (clock w) (reads w) (calls w ++ [ctx])
          (goroutines w).
Definition spawn (g : Prog unit) (w : World) : World :=
  mkWorld (cache w) (env w) (clock w) (reads w) (calls w)
          (goroutines w ++ [g]).
Definition with_goroutines (gs : list (Prog unit)) (w : World) : World :=
  mkWorld (cache w) (env w) (clock w) (reads w) (calls w) gs.

(** What one operation does: it completes with a result and a new
    state, it has to wait (a [Lock] on a locked mutex), or it panics. *)
Inductive OpResult (X : Type) : Type :=
| Ok (x : X) (w : World)
| Wait
| Crash (why : PanicKind).
Arguments Wait {X}.
Arguments Crash {X} why.

Definition do_op {X : Type} (op : Op X) (w : World) : OpResult X :=
  match op with
  | ValLoad => Ok (val (cache w)) w
  | ValStore v => Ok tt (with_cache (set_val (Some v)) w)
  | LastUpdateMsLoad => Ok (lastUpdateMs (cache w)) w
  | LastUpdateMsStore ms => Ok tt (with_cache (set_lastUpdateMs ms) w)
  | ReadTTL => Ok (ttl (cache w)) w
  | ReadOpts => Ok (opts (cache w)) w
  | CallUpdateFn ctx =>
      match updateFn (cache w) with
      | Some f =>
          Ok (fst (f ctx (env w))) (called ctx (snd (f ctx (env w))) w)
      | None => Crash NilFuncCall
      end
  | TimeNow => Ok (clock w (reads w)) (tick w)
  | TryLock =>
      if updating (cache w) then Ok false w
      else Ok true (with_cache (set_updating true) w)
  | Lock =>
      if updating (cache w) then Wait
      else Ok tt (with_cache (set_updating true) w)
  | Unlock =>
      if updating (cache w) then Ok tt (with_cache (set_updating false) w)
      else Crash UnlockOfUnlockedMutex
  end.

(** *** Running a body until it ends or has to wait *)

Inductive Outcome (R : Type) : Type :=
| Returned (r : R)
| Panicked (why : PanicKind).
Arguments Panicked {R} why.

(** The body as an outcome already reached. *)
Definition finish {R : Type} (o : Outcome R) : Prog R :=
  match o with
  | Returned r => Ret r
  | Panicked why => Panic why
  end.

Inductive Result (R : Type) : Type :=
| Done (o : Outcome R) (w : World)
| Blocked (rest : Prog R) (w : World).

Fixpoint exec (R : Type) (p : Prog R) (w : World) {struct p} : Result R :=
  match p with
  | Ret r => Done (Returned r) w
  | Panic why => Done (Panicked why) w
  | Do op k =>
      match do_op op w with
      | Ok x w' => exec (k x) w'
      | Wait => Blocked p w
      | Crash why => Done (Panicked why) w
      end
  | Call callee k =>
      match exec callee w with
      | Done (Returned x) w' => exec (k x) w'
      | Done (Panicked why) w' => Done (Panicked why) w'
      | Blocked callee' w' => Blocked (Call callee' k) w'
      end
  | Go body k => exec k (spawn body w)
  | Defer d body =>
      match exec body w with
      | Done o w' =>
          match exec d w' with
          | Done (Returned _) w'' => Done o w''
          | Done (Panicked why) w'' => Done (Panicked why) w''
          | Blocked d' w'' => Blocked (_ <- call d' ;; finish o) w''
          end
      | Blocked body' w' => Blocked (Defer d body') w'
      end
  end.

(** *** One caller at a time

    A call runs by itself.  When it has to wait for the mutex, the
    goroutines started and not yet run are run to their end, oldest first,
    and the call resumes. *)

Definition run_goroutine (w : World) (g : Prog unit) : World :=
  match exec g w with
  | Done _ w' => w'
  | Blocked g' w' => spawn g' w'
  end.

Definition run_goroutines (w : World) : World :=
  fold_left run_goroutine (goroutines w) (with_goroutines [] w).

Definition run_call (R : Type) (p : Prog R) (w : World)
    : option (Outcome R * World) :=
  match exec p w with
  | Done o w' => Some (o, w')
  | Blocked rest w1 =>
      match exec rest (run_goroutines w1) with
      | Done o w' => Some (o, w')
      | Blocked _ _ => None
      end
  end.

(** *** One operation at a time *)

(** What a step shows: the operation performed, with its result. *)
Inductive Label : Type :=
| Silent
| Performed {X : Type} (op : Op X) (x : X).

(** The outcome of a body that has ended. *)
Definition outcome_of (R : Type) (p : Prog R) : option (Outcome R) :=
  match p with
  | Ret r => Some (Returned r)
  | Panic why => Some (Panicked why)
  | _ => None
  end.

Fixpoint step (R : Type) (p : Prog R) (w : World) {struct p}
    : option (Label * Prog R * World) :=
  match p with
  | Ret _ => None
  | Panic _ => None
  | Do op k =>
      match do_op op w with
      | Ok x w' => Some (Performed op x, k x, w')
      | Wait => None
      | Crash why => Some (Silent, Panic why, w)
      end
  | Call callee k =>
      match outcome_of callee with
      | Some (Returned x) => Some (Silent, k x, w)
      | Some (Panicked why) => Some (Silent, Panic why, w)
      | None =>
          match step callee w with
          | Some (l, callee', w') => Some (l, Call callee' k, w')
          | None => None
          end
      end
  | Go body k => Some (Silent, k, spawn body w)
  | Defer d body =>
      match outcome_of body with
      | Some o => Some (Silent, Call d (fun _ => finish o), w)
      | None =>
          match step body w with
          | Some (l, body', w') => Some (l, Defer d body', w')
          | None => None
          end
      end
  end.

(** The calls of [GetWithCtx] in progress, over the shared state; the
    goroutines are those of the state. *)
Record Pool := mkPool {
  shared : World;
  callers : list (Prog (T * error))
}.

Inductive Tid := Caller (i : nat) | Goroutine (j : nat).

Fixpoint set_nth {A : Type} (n : nat) (x : A) (l : list A) {struct l}
    : list A :=
  match l, n with
  | [], _ => []
  | _ :: l', O => x :: l'
  | y :: l', S n' => y :: set_nth n' x l'
  end.

(** The thread [tid] performs its next operation, if it has one that can
    proceed. *)
Definition sched_step (tid : Tid) (P : Pool) : option (Label * Pool) :=
  match tid with
  | Caller i =>
      match nth_error (callers P) i with
      | Some p =>
          match step p (shared P) with
          | Some (l, p', w') => Some (l, mkPool w' (set_nth i p' (callers P)))
          | None => None
          end
      | None => None
      end
  | Goroutine j =>
      match nth_error (goroutines (shared P)) j with
      | Some g =>
          match step g (shared P) with
          | Some (l, g', w') =>
              Some (l, mkPool (with_goroutines
                                 (set_nth j g' (goroutines w')) w')
                              (callers P))
          | None => None
          end
      | None => None
      end
  end.

(** A new call of [GetWithCtx] starts. *)
Definition arrive (ctx : Ctx) (P : Pool) : Pool :=
  mkPool (shared P) (callers P ++ [GetWithCtx ctx]).

(** One move of the pool, with what it shows. *)
Inductive pstep : Pool -> list Label -> Pool -> Prop :=
| pstep_thread (tid : Tid) (l : Label) (P P' : Pool) :
    sched_step tid P = Some (l, P') -> pstep P [l] P'
| pstep_arrive (ctx : Ctx) (P : Pool) :
    pstep P [] (arrive ctx P).

(** The pools that can be reached from [P0], each with the operations
    performed on the way, in their order. *)
Inductive reachable (P0 : Pool) : list Label -> Pool -> Prop :=
| reachable_start : reachable P0 [] P0
| reachable_step (tr ls : list Label) (P P' : Pool) :
    reachable P0 tr P -> pstep P ls P' -> reachable P0 (tr ++ ls) P'.

(** A schedule, run from a pool: the threads take one step each in the
    order listed (a thread that cannot proceed is skipped).  The result
    lists, per step taken, the thread, what it performed and the pool it
    left. *)
Fixpoint run_sched (sched : list Tid) (P : Pool)
    : list (Tid * Label * Pool) :=
  match sched with
  | [] => []
  | tid :: rest =>
      match sched_step tid P with
      | Some (l, P') => (tid, l, P') :: run_sched rest P'
      | None => run_sched rest P
      end
  end.

(** What a schedule shows. *)
Definition sched_labels (sched : list Tid) (P : Pool) : list Label :=
  map (fun s => snd (fst s)) (run_sched sched P).

(** The stores of values and of timestamps among the operations
    performed. *)
Definition value_stored (l : Label) : bool :=
  match l with
  | Performed op _ => stores_value op
  | Silent => false
  end.

Definition stamp_stored (l : Label) : bool :=
  match l with
  | Performed op _ => stores_stamp op
  | Silent => false
  end.

Definition value_stores (tr : list Label) : nat :=
  length (filter value_stored tr).

Definition stamp_stores (tr : list Label) : nat :=
  length (filter stamp_stored tr).

(** ** Vocabulary of the properties *)

(** [tNow - vTime], in milliseconds, as the next call of [GetWithCtx]
    computes it from the next reading of the clock. *)
Definition ageMs (w : World) : Z :=
  sub64 (Time_UnixMilli (clock w (reads w))) (lastUpdateMs (cache w)).

(** The time since the stored timestamp, at the next reading of the
    clock. *)
Definition age (w : World) : Duration :=
  clock w (reads w) - UnixMilli (lastUpdateMs (cache w)).

(** The state a [Result] ends in. *)
Definition final (R : Type) (r : Result R) : World :=
  match r with
  | Done _ w => w
  | Blocked _ w => w
  end.

(** The value [update] falls back on when the refresh function fails:
    [t.opts.ReturnLastGood && t.val.Load() != nil]. *)
Definition lastGood (t : Cache) : option T :=
  if ReturnLastGood (opts t) then val t else None.

(** The state in which a caller that asks for the mutex in [w] gets it:
    at once when the mutex is free, after the goroutines have run when
    it is held. *)
Definition guardAcquired (w : World) : World :=
  with_cache (set_updating true)
             (if updating (cache w) then run_goroutines w else w).

(** The clock and the numbers of the cache are those of a running
    program: the ttl is an [int64]; the stored timestamp is zero or an
    earlier reading of the clock (not negative, not after the clock);
    the clock can be held in an [int64] of nanoseconds and does not go
    back. *)
Definition steady (w : World) : Prop :=
  in_int64 (ttl (cache w))
  /\ 0 <= lastUpdateMs (cache w)
  /\ lastUpdateMs (cache w) * 1000000 <= clock w (reads w)
  /\ (forall n : nat, clock w n < 2 ^ 63)
  /\ (forall n : nat, clock w n <= clock w (S n)).

(** [keeps_value p has Q]: started by a goroutine that knows [has], the
    body [p] never dereferences a nil [t.val], stores a timestamp only
    when it knows a value is stored, and ends, if it returns [r] knowing
    [has'], with [Q r has']. *)
Fixpoint keeps_value (R : Type) (p : Prog R) (has : bool)
    (Q : R -> bool -> Prop) {struct p} : Prop :=
  match p with
  | Ret r => Q r has
  | Panic why => why <> NilDeref
  | Do op k =>
      permitted op has
      /\ forall x,
           consistent op x has -> keeps_value (k x) (learns op x has) Q
  | Call callee k =>
      keeps_value callee has (fun x has' => keeps_value (k x) has' Q)
  | Go body k =>
      keeps_value body has (fun _ _ => True) /\ keeps_value k has Q
  | Defer d body =>
      keeps_value body has
        (fun r has' => keeps_value d has' (fun _ has'' => Q r has''))
      /\ forall has', keeps_value d has' (fun _ _ => True)
  end.

(** [ordered p owes Q]: the body [p] stores a value and a timestamp in
    turn, the value first.  [owes] holds when the goroutine has stored a
    value and not yet its timestamp; if the body returns [r] with
    [owes'], then [Q r owes']. *)
Definition store_in_turn (X : Type) (op : Op X) (owes : bool) : Prop :=
  if stores_value op then owes = false
  else if stores_stamp op then owes = true
  else True.

Definition owes_after (X : Type) (op : Op X) (owes : bool) : bool :=
  if stores_value op then true
  else if stores_stamp op then false
  else owes.

Fixpoint ordered (R : Type) (p : Prog R) (owes : bool)
    (Q : R -> bool -> Prop) {struct p} : Prop :=
  match p with
  | Ret r => Q r owes
  | Panic _ => True
  | Do op k =>
      store_in_turn op owes
      /\ forall x, ordered (k x) (owes_after op owes) Q
  | Call callee k =>
      ordered callee owes (fun x owes' => ordered (k x) owes' Q)
  | Go body k =>
      ordered body false (fun _ _ => True) /\ ordered k owes Q
  | Defer d body =>
      ordered body owes
        (fun r owes' => ordered d owes' (fun _ owes'' => Q r owes''))
      /\ forall owes', ordered d owes' (fun _ _ => True)
  end.

(** The number of goroutines that owe a timestamp. *)
Definition owing (flags : list bool) : nat :=
  length (filter (fun b : bool => b) flags).

(** Every thread of the pool stores in turn, and the stores of values
    are the stores of timestamps and one more for each thread that owes
    its timestamp. *)
Definition pool_ordered (tr : list Label) (P : Pool) : Prop :=
  exists fc fg : list bool,
    Forall2 (fun p b => ordered p b (fun _ _ => True)) (callers P) fc
    /\ Forall2 (fun g b => ordered g b (fun _ _ => True))
               (goroutines (shared P)) fg
    /\ value_stores tr = (stamp_stores tr + owing fc + owing fg)%nat.

(** What a goroutine knows is true of the state. *)
Definition sound (has : bool) (w : World) : Prop :=
  has = true -> val (cache w) <> None.

Definition thread_ok (R : Type) (p : Prog R) (w : World) : Prop :=
  exists has : bool, sound has w /\ keeps_value p has (fun _ _ => True).

(** What [exec] leaves of a body that keeps the value. *)
Definition exec_kept (R : Type) (Q : R -> bool -> Prop) (res : Result R)
    : Prop :=
  match res with
  | Done (Returned r) w' => exists has' : bool, sound has' w' /\ Q r has'
  | Done (Panicked why) _ => why <> NilDeref
  | Blocked p' w' =>
      exists has' : bool, sound has' w' /\ keeps_value p' has' Q
  end.

(** A timestamp has been stored only if a value has. *)
Definition stamped_after_stored (w : World) : Prop :=
  lastUpdateMs (cache w) <> 0 -> val (cache w) <> None.

Definition pool_ok (P : Pool) : Prop :=
  stamped_after_stored (shared P)
  /\ Forall (fun p => thread_ok p (shared P)) (callers P)
  /\ Forall (fun g => thread_ok g (shared P)) (goroutines (shared P)).

(** A pool with no call in progress, over a cache in which nothing has
    been stored yet. *)
Definition start (t : Cache) (e : Env) (clk : nat -> Time) : Pool :=
  mkPool (mkWorld (set_updating false (set_lastUpdateMs 0 (set_val None t)))
                  e clk 0 [] [])
         [].

(** What [InitOnce] binds. *)
Definition binding (t : Cache) : Duration * Opts * option UpdateFn :=
  (ttl t, opts t, updateFn t).

(** What can happen to a cache during its lifetime: a call of [InitOnce],
    a call of [GetWithCtx], the goroutines getting to run. *)
Inductive Event : Type :=
| EvInitOnce (ttl0 : Duration) (opts0 : Opts) (update : option UpdateFn)
| EvGet (ctx : Ctx)
| EvGoroutines.

Definition happen (w : World) (e : Event) : World :=
  match e with
  | EvInitOnce ttl0 opts0 update => with_cache (InitOnce ttl0 opts0 update) w
  | EvGet ctx =>
      match run_call (GetWithCtx ctx) w with
      | Some (_, w') => w'
      | None => w
      end
  | EvGoroutines => run_goroutines w
  end.

Definition lifetime (es : list Event) (w : World) : World :=
  fold_left happen es w.

(** The binding and the [sync.Once] of [w'] are those of [w]. *)
Definition same_binding (w w' : World) : Prop :=
  binding (cache w') = binding (cache w) /\ Once (cache w') = Once (cache w).

(** Several steps of one thread. *)
Inductive steps (R : Type) : Prog R -> World -> Prog R -> World -> Prop :=
| steps_refl (p : Prog R) (w : World) : steps p w p w
| steps_step (p p' p'' : Prog R) (w w' w'' : World) (l : Label) :
    step p w = Some (l, p', w') ->
    steps p' w' p'' w'' ->
    steps p w p'' w''.

(** What is left to run after [exec]. *)
Definition residual (R : Type) (res : Result R) : Prog R :=
  match res with
  | Done o _ => finish o
  | Blocked rest _ => rest
  end.

(** The pool a schedule ends in. *)
Definition after_sched (sched : list Tid) (P : Pool) : Pool :=
  fold_left (fun P tid =>
               match sched_step tid P with
               | Some (_, P') => P'
               | None => P
               end) sched P.

End CacheValue.

Arguments Ok {T Err Ctx Env X} x w.
Arguments Wait {T Err Ctx Env X}.
Arguments Crash {T Err Ctx Env X} why.
Arguments Returned {R} r.
Arguments Panicked {R} why.
Arguments Done {T Err Ctx Env R} o w.
Arguments Blocked {T Err Ctx Env R} rest w.
Arguments finish {T Err Ctx R} o.
Arguments Silent {T Err Ctx}.
Arguments EvInitOnce {T Err Ctx Env} ttl0 opts0 update.
Arguments EvGet {T Err Ctx Env} ctx.
Arguments EvGoroutines {T Err Ctx Env}.
Arguments Performed {T Err Ctx X} op x.

(** * A cache of integers

    The instance the examples run on: the cache holds integers, errors
    are numbered, a context is a number (zero for
    [context.Background()]), and the refresh function works on a counter. *)

Module Scenario.

Definition ZCache : Type := Cache Z nat nat Z.
Definition ZWorld : Type := World Z nat nat Z.
Definition ZPool : Type := Pool Z nat nat Z.

Definition background : nat := 0%nat.
Definition caller : nat := 7%nat.

(** [n] milliseconds. *)
Definition ms (n : Z) : Duration := n * Millisecond.

(** A refresh function that counts: it returns 1, 2, 3, ... *)
Definition counting : UpdateFn Z nat nat Z :=
  fun _ n => ((n + 1, None), n + 1).

(** A refresh function that fails with error 42. *)
Definition failing : UpdateFn Z nat nat Z :=
  fun _ n => ((0, Some 42%nat), n).

(** A clock that stands still. *)
Definition frozen (t : Time) : nat -> Time := fun _ => t.

(** A cache that holds [v], stamped [stamp], with its mutex free. *)
Definition holding (ttl0 : Duration) (o : Opts)
    (f : UpdateFn Z nat nat Z) (v stamp : Z) : ZCache :=
  mkCache (Some f) ttl0 o false (Some v) stamp false.

(** The state of a program that has called the refresh function once (the
    counter is 1) and has no goroutine waiting to run. *)
Definition world (t : ZCache) (clk : nat -> Time) : ZWorld :=
  mkWorld t 1 clk 0%nat [] [].

Definition get : Prog Z nat nat (Z * error nat) :=
  GetWithCtx 0 nat background caller.

Definition plain : Opts := mkOpts false false.
Definition noWait : Opts := mkOpts false true.
Definition lastGoodOpt : Opts := mkOpts true false.

(** What a call returned, and the contexts the refresh function has been
    called with. *)
Definition returned (r : option (Outcome (Z * error nat) * ZWorld))
    : option (Z * error nat) :=
  match r with
  | Some (Returned x, _) => Some x
  | _ => None
  end.

Definition calls_after (r : option (Outcome (Z * error nat) * ZWorld))
    : list nat :=
  match r with
  | Some (_, w) => calls w
  | None => []
  end.

Definition world_after (r : option (Outcome (Z * error nat) * ZWorld))
    (w : ZWorld) : ZWorld :=
  match r with
  | Some (_, w') => w'
  | None => w
  end.

(** Two calls over a cache that holds 1, stamped at 1000 ms, with a ttl of
    100 ms, at 2000 ms: the first call loads the value, the second runs
    from its start to its end (it refreshes the cache), the first goes
    on. *)
Definition torn_pool : ZPool :=
  mkPool (world (holding (ms 100) plain counting 1 1000) (frozen (ms 2000)))
         [get; get].

Definition torn_schedule : list Tid :=
  [Caller 0] ++ repeat (Caller 1) 20 ++ repeat (Caller 0) 4.

(** The value and the timestamp a thread loaded first. *)
Definition loaded_val (l : Label Z nat nat) : option (option Z) :=
  match l with
  | Performed op x =>
      match op in Op _ _ _ X return X -> option (option Z) with
      | ValLoad => fun v => Some v
      | _ => fun _ => None
      end x
  | Silent => None
  end.

Definition loaded_stamp (l : Label Z nat nat) : option Z :=
  match l with
  | Performed op x =>
      match op in Op _ _ _ X return X -> option Z with
      | LastUpdateMsLoad => fun v => Some v
      | _ => fun _ => None
      end x
  | Silent => None
  end.

Fixpoint first_some {A B : Type} (f : A -> option B) (l : list A)
    : option B :=
  match l with
  | [] => None
  | a :: l' => match f a with Some b => Some b | None => first_some f l' end
  end.

Definition is_caller (i : nat) (tid : Tid) : bool :=
  match tid with
  | Caller j => Nat.eqb i j
  | Goroutine _ => false
  end.

Definition labels_of (i : nat) (tr : list (Tid * Label Z nat nat * ZPool))
    : list (Label Z nat nat) :=
  map (fun s => snd (fst s))
      (filter (fun s => is_caller i (fst (fst s))) tr).

(** The pair (value, timestamp) that call [i] loaded. *)
Definition observed (i : nat) (tr : list (Tid * Label Z nat nat * ZPool))
    : option (option Z) * option Z :=
  (first_some loaded_val (labels_of i tr),
   first_some loaded_stamp (labels_of i tr)).

(** The pair (value, timestamp) a pool holds. *)
Definition held (P : ZPool) : option Z * Z :=
  (val (cache (shared P)), lastUpdateMs (cache (shared P))).

(** Every pair the cache held during a run. *)
Definition held_during (P : ZPool) (tr : list (Tid * Label Z nat nat * ZPool))
    : list (option Z * Z) :=
  held P :: map (fun s => held (snd s)) tr.

Definition pair_eqb (a b : option Z * Z) : bool :=
  match fst a, fst b with
  | Some x, Some y => Z.eqb x y && Z.eqb (snd a) (snd b)
  | None, None => Z.eqb (snd a) (snd b)
  | _, _ => false
  end.

(** A call that waits: [NoWait] is set, the value 7 is 300 ms old with a
    ttl of 100 ms, and the goroutine of an earlier call holds the mutex.
    The call waits, the goroutine stores 2, and the call returns 2: the
    refresh function has been called by the goroutine only. *)
Definition waiting_world : ZWorld :=
  mkWorld (mkCache (Some counting) (ms 100) noWait false (Some 7) 1000 true)
          1 (frozen (ms 1300)) 0%nat []
          [backgroundRefresh Z nat background].

(** A first call of [GetWithCtx] on a new cache, run to its end. *)
Definition first_call_start : ZPool :=
  arrive 0 background caller
    (start (NewFromFunc (ms 100) plain (Some counting)) 0
           (frozen (ms 1000))).

Definition first_call_pool : ZPool :=
  after_sched (repeat (Caller 0) 20) first_call_start.

Definition first_call_labels : list (Label Z nat nat) :=
  sched_labels (repeat (Caller 0) 20) first_call_start.

End Scenario.

(** * Properties *)

(** ** Arithmetic of durations and instants *)

Lemma wrap64_small (z : Z) : in_int64 z -> wrap64 z = z.
Proof.
  unfold in_int64, wrap64. intros H.
  rewrite Z.mod_small by lia. lia.
Qed.

Lemma Milliseconds_nonpos (d : Z) : d <= 0 -> Milliseconds d <= 0.
Proof.
  unfold Milliseconds. intros H.
  replace d with (- (- d)) by lia.
  rewrite Z.quot_opp_l by lia.
  rewrite Z.quot_div_nonneg by lia.
  assert (0 <= (- d) / 1000000) by (apply Z.div_pos; lia). lia.
Qed.

Lemma Milliseconds_floor (d a : Z) :
  0 <= a -> d < (a + 1) * 1000000 -> Milliseconds d <= a.
Proof.
  intros Ha H. destruct (Z_le_gt_dec 0 d) as [Hd|Hd].
  - unfold Milliseconds. rewrite Z.quot_div_nonneg by lia.
    assert (d / 1000000 < a + 1); [|lia].
    apply Z.div_lt_upper_bound; lia.
  - assert (Milliseconds d <= 0) by (apply Milliseconds_nonpos; lia). lia.
Qed.

Lemma Milliseconds_twice_floor (d a : Z) :
  0 <= a -> 2 * d < (a + 1) * 1000000 -> Milliseconds d * 2 <= a.
Proof.
  intros Ha H. destruct (Z_le_gt_dec 0 d) as [Hd|Hd].
  - unfold Milliseconds. rewrite Z.quot_div_nonneg by lia.
    pose proof (Z.mul_div_le d 1000000 ltac:(lia)). nia.
  - assert (Milliseconds d <= 0) by (apply Milliseconds_nonpos; lia). lia.
Qed.

Lemma Milliseconds_range (d : Z) :
  in_int64 d -> - 2 ^ 62 <= Milliseconds d * 2 < 2 ^ 62.
Proof.
  unfold in_int64, Milliseconds. intros H.
  destruct (Z_le_gt_dec 0 d) as [Hd|Hd].
  - rewrite Z.quot_div_nonneg by lia.
    assert (0 <= d / 1000000) by (apply Z.div_pos; lia).
    assert (d / 1000000 < 2 ^ 61); [|lia].
    apply Z.div_lt_upper_bound; lia.
  - replace d with (- (- d)) by lia.
    rewrite Z.quot_opp_l by lia.
    rewrite Z.quot_div_nonneg by lia.
    assert (0 <= (- d) / 1000000) by (apply Z.div_pos; lia).
    assert ((- d) / 1000000 < 2 ^ 61); [|lia].
    apply Z.div_lt_upper_bound; lia.
Qed.

Lemma mul64_Milliseconds (d : Z) :
  in_int64 d -> mul64 (Milliseconds d) 2 = Milliseconds d * 2.
Proof.
  intros H. unfold mul64. apply wrap64_small.
  pose proof (Milliseconds_range H). unfold in_int64. lia.
Qed.

Lemma Milliseconds_sub_ms (d : Z) :
  0 <= d < 1000000 -> Milliseconds d = 0.
Proof. intros H. unfold Milliseconds. apply Z.quot_small. exact H. Qed.

Lemma Milliseconds_fraction (d : Z) :
  0 < d -> d mod 1000000 <> 0 -> Milliseconds d * 1000000 < d.
Proof.
  intros Hd Hm. unfold Milliseconds.
  rewrite Z.quot_div_nonneg by lia.
  pose proof (Z.div_mod d 1000000 ltac:(lia)).
  pose proof (Z.mod_pos_bound d 1000000 ltac:(lia)). lia.
Qed.

Lemma Sub_ge (t u d : Z) :
  in_int64 d -> d <= t - u -> d <= Sub t u.
Proof.
  unfold in_int64, Sub, minDuration, maxDuration. intros Hd H.
  destruct (t - u <? - 2 ^ 63) eqn:E1.
  - apply Z.ltb_lt in E1. lia.
  - destruct (2 ^ 63 - 1 <? t - u) eqn:E2.
    + lia.
    + exact H.
Qed.

Section Properties.

Variable T : Type.
Variable zeroT : T.
Variable Err : Type.
Variable Ctx : Type.
Variable Background : Ctx.
Variable Env : Type.

Local Abbreviation Cache := (Cache T Err Ctx Env).
Local Abbreviation World := (World T Err Ctx Env).
Local Abbreviation UpdateFn := (UpdateFn T Err Ctx Env).
Local Abbreviation Prog := (Prog T Err Ctx).
Local Abbreviation Op := (Op T Err Ctx).
Local Abbreviation error := (error Err).
Local Abbreviation nil := (nil Err).
Local Abbreviation update := (update T Err (Ctx:=Ctx)).
Local Abbreviation backgroundRefresh := (backgroundRefresh T Err Background).
Local Abbreviation refreshAndLoad := (refreshAndLoad zeroT Err (Ctx:=Ctx)).
Local Abbreviation recheckAndRefresh :=
  (recheckAndRefresh zeroT Err (Ctx:=Ctx)).
Local Abbreviation serveStale := (serveStale Err Background).
Local Abbreviation lockedRefresh := (lockedRefresh zeroT Err (Ctx:=Ctx)).
Local Abbreviation GetWithCtx := (GetWithCtx zeroT Err Background).
Local Abbreviation lifetime :=
  (lifetime zeroT Background (Env:=Env) (Err:=Err)).
Local Abbreviation happen := (happen zeroT Background (Env:=Env) (Err:=Err)).
Local Abbreviation Event := (Event T Err Ctx Env).
Local Abbreviation New := (New T Err Ctx Env).
Local Abbreviation Pool := (Pool T Err Ctx Env).
Local Abbreviation Label := (Label T Err Ctx).
Local Abbreviation Result := (Result T Err Ctx Env).
Local Abbreviation pstep := (pstep zeroT Background (Env:=Env) (Err:=Err)).
Local Abbreviation reachable :=
  (reachable zeroT Background (Env:=Env) (Err:=Err)).
Local Abbreviation arrive := (arrive zeroT Background (Env:=Env) (Err:=Err)).
Local Abbreviation steps := (steps (T:=T) (Err:=Err) (Ctx:=Ctx) (Env:=Env)).

Local Open Scope prog_scope.

(** ** No operation rebinds the cache *)

Lemma same_binding_refl (w : World) : same_binding w w.
Proof. split; reflexivity. Qed.

Lemma same_binding_trans (w1 w2 w3 : World) :
  same_binding w1 w2 -> same_binding w2 w3 -> same_binding w1 w3.
Proof.
  unfold same_binding. intros [H1 H2] [H3 H4].
  split; congruence.
Qed.

Lemma do_op_same_binding (X : Type) (op : Op X) (w w' : World) (x : X) :
  do_op op w = Ok x w' -> same_binding w w'.
Proof.
  destruct op; simpl; intros H;
    repeat match type of H with
           | context [match ?c with _ => _ end] => destruct c
           end;
    inversion H; subst; split; reflexivity.
Qed.

Lemma exec_same_binding (R : Type) (p : Prog R) :
  forall w : World, same_binding w (final (exec p w)).
Proof.
  induction p as [R r|R why|R X op k IH|R X callee IHc k IHk|R body IHb k IHk
                 |R d IHd body IHb]; intros w; simpl.
  - apply same_binding_refl.
  - apply same_binding_refl.
  - destruct (do_op op w) as [x w'| |why] eqn:E; simpl.
    + eapply same_binding_trans; [eapply do_op_same_binding; eassumption|].
      apply IH.
    + apply same_binding_refl.
    + apply same_binding_refl.
  - specialize (IHc w).
    destruct (exec callee w) as [[x|why] w'|c' w']; simpl in *.
    + eapply same_binding_trans; [exact IHc|apply IHk].
    + exact IHc.
    + exact IHc.
  - eapply same_binding_trans; [|apply IHk]. split; reflexivity.
  - specialize (IHb w).
    destruct (exec body w) as [o w'|b' w']; simpl in *.
    + specialize (IHd w').
      destruct (exec d w') as [[x|why] w''|d' w'']; simpl in *;
        eapply same_binding_trans; eassumption.
    + exact IHb.
Qed.

Lemma run_goroutine_same_binding (w : World) (g : Prog unit) :
  same_binding w (run_goroutine w g).
Proof.
  unfold run_goroutine.
  pose proof (exec_same_binding g w) as H.
  destruct (exec g w) as [o w'|g' w']; simpl in H.
  - exact H.
  - eapply same_binding_trans; [exact H|split; reflexivity].
Qed.

Lemma fold_goroutines_same_binding (gs : list (Prog unit)) :
  forall w : World, same_binding w (fold_left (@run_goroutine _ _ _ _) gs w).
Proof.
  induction gs as [|g gs IH]; intros w; simpl.
  - apply same_binding_refl.
  - eapply same_binding_trans; [apply run_goroutine_same_binding|apply IH].
Qed.

Lemma run_goroutines_same_binding (w : World) :
  same_binding w (run_goroutines w).
Proof.
  unfold run_goroutines.
  eapply same_binding_trans; [|apply fold_goroutines_same_binding].
  split; reflexivity.
Qed.

Lemma run_call_same_binding (R : Type) (p : Prog R) (w w' : World)
    (o : Outcome R) :
  run_call p w = Some (o, w') -> same_binding w w'.
Proof.
  unfold run_call.
  pose proof (exec_same_binding p w) as H1.
  destruct (exec p w) as [o1 w1|rest w1]; simpl in H1.
  - intros H; inversion H; subst; exact H1.
  - pose proof (exec_same_binding rest (run_goroutines w1)) as H2.
    destruct (exec rest (run_goroutines w1)) as [o2 w2|rest2 w2];
      simpl in H2; intros H; inversion H; subst.
    eapply same_binding_trans; [exact H1|].
    eapply same_binding_trans; [apply run_goroutines_same_binding|exact H2].
Qed.

Lemma InitOnce_done (ttl0 : Duration) (opts0 : Opts)
    (f : option UpdateFn) (t : Cache) :
  Once t = true -> InitOnce ttl0 opts0 f t = t.
Proof. unfold InitOnce. intros ->. reflexivity. Qed.

Lemma Once_InitOnce (ttl0 : Duration) (opts0 : Opts)
    (f : option UpdateFn) (t : Cache) :
  Once (InitOnce ttl0 opts0 f t) = true.
Proof. unfold InitOnce. destruct (Once t) eqn:E; simpl; auto. Qed.

Lemma happen_same_binding (e : Event) (w : World) :
  Once (cache w) = true -> same_binding w (happen w e).
Proof.
  intros HO. destruct e as [ttl0 opts0 f|ctx|]; simpl.
  - unfold same_binding; simpl. rewrite InitOnce_done by exact HO.
    split; reflexivity.
  - destruct (run_call (GetWithCtx ctx) w) as [[o w']|] eqn:E.
    + eapply run_call_same_binding; eassumption.
    + apply same_binding_refl.
  - apply run_goroutines_same_binding.
Qed.

Lemma lifetime_same_binding (es : list Event) :
  forall w : World, Once (cache w) = true -> same_binding w (lifetime es w).
Proof.
  induction es as [|e es IH]; intros w HO; simpl.
  - apply same_binding_refl.
  - pose proof (@happen_same_binding e w HO) as H.
    eapply same_binding_trans; [exact H|].
    apply IH. destruct H as [_ H]. rewrite H. exact HO.
Qed.

(** C1 (as amended).  Once a call of [InitOnce] has completed on a cache,
    nothing that happens to the cache afterwards (further calls of
    [InitOnce] with any parameters, calls of [GetWithCtx], goroutines)
    changes the ttl, the options or the refresh function it then had; and
    these are the parameters of that call whenever the [sync.Once] of the
    cache had not run before it.  [NewFromFunc] does not run the
    [sync.Once]. *)
Theorem C1_InitOnce_first_completed_wins (w : World) (ttl1 : Duration)
    (opts1 : Opts) (f1 : option UpdateFn) (es : list Event) :
  binding (cache (lifetime es (with_cache (InitOnce ttl1 opts1 f1) w)))
  = binding (InitOnce ttl1 opts1 f1 (cache w))
  /\ (Once (cache w) = false ->
      binding (InitOnce ttl1 opts1 f1 (cache w)) = (ttl1, opts1, f1))
  /\ (forall (ttl0 : Duration) (opts0 : Opts) (f0 : option UpdateFn),
      Once (NewFromFunc ttl0 opts0 f0) = false).
Proof.
  split; [|split].
  - apply (lifetime_same_binding es (with_cache (InitOnce ttl1 opts1 f1) w)).
    simpl. apply Once_InitOnce.
  - intros HO. unfold InitOnce. rewrite HO. reflexivity.
  - reflexivity.
Qed.

(** ** Unfolding [exec] *)

Lemma exec_Do (R X : Type) (op : Op X) (k : X -> Prog R) (w : World) :
  exec (Do op k) w
  = match do_op op w with
    | Ok x w' => exec (k x) w'
    | Wait => Blocked (Do op k) w
    | Crash why => Done (Panicked why) w
    end.
Proof. reflexivity. Qed.

Lemma exec_Call (R X : Type) (callee : Prog X) (k : X -> Prog R)
    (w : World) :
  exec (Call callee k) w
  = match exec callee w with
    | Done (Returned x) w' => exec (k x) w'
    | Done (Panicked why) w' => Done (Panicked why) w'
    | Blocked callee' w' => Blocked (Call callee' k) w'
    end.
Proof. reflexivity. Qed.

Lemma exec_Defer (R : Type) (d : Prog unit) (body : Prog R) (w : World) :
  exec (Defer d body) w
  = match exec body w with
    | Done o w' =>
        match exec d w' with
        | Done (Returned _) w'' => Done o w''
        | Done (Panicked why) w'' => Done (Panicked why) w''
        | Blocked d' w'' => Blocked (_ <- call d' ;; finish o) w''
        end
    | Blocked body' w' => Blocked (Defer d body') w'
    end.
Proof. reflexivity. Qed.

(** Performs the operations at the head of the program being run. *)
Ltac run_ops := repeat (rewrite exec_Do; simpl do_op; cbv beta iota).

(** ** [exec] runs the steps of [step] *)

Lemma steps_trans (R : Type) (p1 p2 p3 : Prog R) (w1 w2 w3 : World) :
  steps p1 w1 p2 w2 -> steps p2 w2 p3 w3 -> steps p1 w1 p3 w3.
Proof.
  intros H1 H2. induction H1 as [|p p' p'' w w' w'' l Hs H1 IH].
  - exact H2.
  - eapply steps_step; [exact Hs|]. apply IH. exact H2.
Qed.

Lemma steps_one (R : Type) (p p' : Prog R) (w w' : World) (l : Label) :
  step p w = Some (l, p', w') -> steps p w p' w'.
Proof. intros H. eapply steps_step; [exact H|apply steps_refl]. Qed.

Lemma step_outcome_of (R : Type) (p p' : Prog R) (w w' : World) (l : Label) :
  step p w = Some (l, p', w') -> outcome_of p = None.
Proof. destruct p; simpl; intros H; try discriminate; reflexivity. Qed.

Lemma steps_Call (R X : Type) (c c' : Prog X) (k : X -> Prog R)
    (w w' : World) :
  steps c w c' w' -> steps (Call c k) w (Call c' k) w'.
Proof.
  intros H. induction H as [|c c1 c2 w w1 w2 l Hs H IH].
  - apply steps_refl.
  - eapply steps_step; [|exact IH]. simpl.
    rewrite (step_outcome_of _ _ Hs), Hs. reflexivity.
Qed.

Lemma steps_Defer (R : Type) (d : Prog unit) (b b' : Prog R)
    (w w' : World) :
  steps b w b' w' -> steps (Defer d b) w (Defer d b') w'.
Proof.
  intros H. induction H as [|b b1 b2 w w1 w2 l Hs H IH].
  - apply steps_refl.
  - eapply steps_step; [|exact IH]. simpl.
    rewrite (step_outcome_of _ _ Hs), Hs. reflexivity.
Qed.

Lemma outcome_of_finish_eq (R : Type) (o : Outcome R) :
  outcome_of (finish (T:=T) (Err:=Err) (Ctx:=Ctx) o) = Some o.
Proof. destruct o; reflexivity. Qed.

(** Running a body by [exec] takes it, step by step, to what [exec]
    leaves: its outcome, or the rest of it waiting for the mutex. *)
Lemma exec_steps (R : Type) (p : Prog R) :
  forall w : World,
    steps p w (residual (exec p w)) (final (exec p w)).
Proof.
  induction p as [R r|R why|R X op k IH|R X callee IHc k IHk|R body IHb k IHk
                 |R d IHd body IHb]; intros w.
  - apply steps_refl.
  - apply steps_refl.
  - simpl exec. destruct (do_op op w) as [x w1| |why] eqn:E.
    + eapply steps_step; [|apply IH]. simpl. rewrite E. reflexivity.
    + apply steps_refl.
    + simpl. eapply steps_one. simpl. rewrite E. reflexivity.
  - simpl exec. specialize (IHc w).
    apply (steps_Call k) in IHc.
    destruct (exec callee w) as [[x|why] w1|c1 w1]; simpl in IHc.
    + eapply steps_trans; [exact IHc|].
      eapply steps_step; [|apply IHk]. reflexivity.
    + eapply steps_trans; [exact IHc|]. eapply steps_one. reflexivity.
    + exact IHc.
  - simpl exec. eapply steps_step; [|apply IHk]. reflexivity.
  - simpl exec. specialize (IHb w).
    apply (steps_Defer d) in IHb.
    destruct (exec body w) as [o w1|b1 w1]; simpl in IHb.
    + eapply steps_trans; [exact IHb|].
      eapply steps_step.
      { simpl. rewrite outcome_of_finish_eq. reflexivity. }
      specialize (IHd w1).
      apply (steps_Call (fun _ : unit => finish o)) in IHd.
      destruct (exec d w1) as [[[]|why] w2|d1 w2]; simpl in IHd.
      * eapply steps_trans; [exact IHd|]. eapply steps_one. reflexivity.
      * eapply steps_trans; [exact IHd|]. eapply steps_one. reflexivity.
      * exact IHd.
    + exact IHb.
Qed.

(** ** Running [update] *)

Lemma exec_update_failure (w : World) (ctx : Ctx) (f : UpdateFn) (e : Err) :
  updateFn (cache w) = Some f ->
  snd (fst (f ctx (env w))) = Some e ->
  exec (update ctx) w
  = Done (Returned (if ReturnLastGood (opts (cache w))
                       && isSome (val (cache w))
                    then nil else Some e))
         (called ctx (snd (f ctx (env w))) w).
Proof.
  intros Hf He. unfold update. simpl. rewrite Hf. rewrite He. simpl.
  destruct (ReturnLastGood (opts (cache w))); simpl; [|reflexivity].
  destruct (val (cache w)); reflexivity.
Qed.

Lemma exec_update_success (w : World) (ctx : Ctx) (f : UpdateFn) :
  updateFn (cache w) = Some f ->
  snd (fst (f ctx (env w))) = None ->
  exec (update ctx) w
  = Done (Returned nil)
         (with_cache
            (set_lastUpdateMs (Time_UnixMilli (clock w (reads w))))
            (tick (with_cache (set_val (Some (fst (fst (f ctx (env w))))))
                              (called ctx (snd (f ctx (env w))) w)))).
Proof.
  intros Hf He. unfold update. simpl. rewrite Hf. rewrite He. reflexivity.
Qed.

(** C8.  When the refresh function returns an error, [update] changes
    neither the stored value nor the stored timestamp (nor any other field
    of the cache), whether it suppresses the error (it returns nil:
    [ReturnLastGood] is set and a value is stored) or hands it on. *)
Theorem C8_failed_update_mutates_nothing (w : World) (ctx : Ctx)
    (f : UpdateFn) (e : Err) :
  updateFn (cache w) = Some f ->
  snd (fst (f ctx (env w))) = Some e ->
  exists w' : World,
    exec (update ctx) w
    = Done (Returned (if ReturnLastGood (opts (cache w))
                         && isSome (val (cache w))
                      then nil else Some e)) w'
    /\ val (cache w') = val (cache w)
    /\ lastUpdateMs (cache w') = lastUpdateMs (cache w)
    /\ cache w' = cache w
    /\ calls w' = calls w ++ [ctx].
Proof.
  intros Hf He. eexists. split.
  - apply exec_update_failure; eassumption.
  - repeat split; reflexivity.
Qed.

(** ** The three ways through [GetWithCtx] *)

Lemma exec_GetWithCtx (w : World) (ctx : Ctx) :
  exec (GetWithCtx ctx) w
  = if isSome (val (cache w)) && (ageMs w <? Milliseconds (ttl (cache w)))
    then exec (deref (val (cache w)) (fun x => Ret (x, nil))) (tick w)
    else if NoWait (opts (cache w)) && isSome (val (cache w))
            && (ageMs w <? mul64 (Milliseconds (ttl (cache w))) 2)
    then exec (serveStale (val (cache w))) (tick w)
    else exec (lockedRefresh ctx (ttl (cache w))) (tick w).
Proof.
  unfold GetWithCtx, ageMs. simpl.
  destruct (isSome (val (cache w))
            && (sub64 (Time_UnixMilli (clock w (reads w)))
                      (lastUpdateMs (cache w))
                <? Milliseconds (ttl (cache w)))); [reflexivity|].
  simpl.
  destruct (NoWait (opts (cache w)) && isSome (val (cache w))
            && (sub64 (Time_UnixMilli (clock w (reads w)))
                      (lastUpdateMs (cache w))
                <? mul64 (Milliseconds (ttl (cache w))) 2)); reflexivity.
Qed.

(** C3 (as amended).  While a value is stored and its age in whole
    milliseconds ([tNow - vTime]) is strictly less than the ttl truncated
    to whole milliseconds ([ttl.Milliseconds()]), [GetWithCtx] returns the
    stored value with a nil error; it reads the clock once and does
    nothing else: the refresh function is not called, no goroutine is
    started, the cache (its mutex included) is left as it was. *)
Theorem C3_fresh_value_served_without_refresh (w : World) (ctx : Ctx)
    (v : T) :
  val (cache w) = Some v ->
  ageMs w < Milliseconds (ttl (cache w)) ->
  exec (GetWithCtx ctx) w = Done (Returned (v, nil)) (tick w)
  /\ calls (tick w) = calls w
  /\ goroutines (tick w) = goroutines w
  /\ cache (tick w) = cache w.
Proof.
  intros Hv Hage. split; [|repeat split; reflexivity].
  rewrite exec_GetWithCtx. rewrite Hv. simpl.
  apply Z.ltb_lt in Hage. rewrite Hage. reflexivity.
Qed.

(** ** The goroutine of the stale window *)

Lemma exec_update_Done (w : World) (ctx : Ctx) (f : UpdateFn) :
  updateFn (cache w) = Some f ->
  exists (err : error) (w' : World),
    exec (update ctx) w = Done (Returned err) w'
    /\ calls w' = calls w ++ [ctx]
    /\ updating (cache w') = updating (cache w)
    /\ goroutines w' = goroutines w.
Proof.
  intros Hf.
  destruct (snd (fst (f ctx (env w)))) as [e|] eqn:He.
  - eexists; eexists. split.
    + apply exec_update_failure; eassumption.
    + repeat split; reflexivity.
  - eexists; eexists. split.
    + apply exec_update_success; eassumption.
    + repeat split; reflexivity.
Qed.

Lemma exec_backgroundRefresh (w : World) (f : UpdateFn) :
  updateFn (cache w) = Some f ->
  updating (cache w) = true ->
  exists w' : World,
    exec backgroundRefresh w = Done (Returned tt) w'
    /\ calls w' = calls w ++ [Background]
    /\ updating (cache w') = false
    /\ goroutines w' = goroutines w.
Proof.
  intros Hf Hu.
  destruct (exec_update_Done w Background Hf)
    as (err & w1 & Hx & Hc & Hm & Hg).
  unfold backgroundRefresh. rewrite exec_Defer, exec_Call, Hx. simpl.
  rewrite Hm, Hu.
  eexists. split; [reflexivity|]. simpl. repeat split; assumption.
Qed.

(** C5 (as amended).  With [NoWait] set, while a value is stored whose age
    in whole milliseconds lies between [ttl.Milliseconds()] (included) and
    twice [ttl.Milliseconds()] (excluded), [GetWithCtx] returns the stored
    value with a nil error and never waits.  When the mutex is free it
    locks it and starts one goroutine; when the mutex is held (a refresh is
    in progress) it starts none.  The goroutine calls the refresh function
    once, with [context.Background()] whatever the caller's context, and
    unlocks the mutex. *)
Theorem C5_stale_value_served_one_background_refresh (w : World)
    (ctx : Ctx) (v : T) :
  NoWait (opts (cache w)) = true ->
  val (cache w) = Some v ->
  Milliseconds (ttl (cache w)) <= ageMs w
    < mul64 (Milliseconds (ttl (cache w))) 2 ->
  (updating (cache w) = false ->
     exec (GetWithCtx ctx) w
     = Done (Returned (v, nil))
            (spawn backgroundRefresh
                   (with_cache (set_updating true) (tick w))))
  /\ (updating (cache w) = true ->
     exec (GetWithCtx ctx) w = Done (Returned (v, nil)) (tick w))
  /\ (forall (w1 : World) (f : UpdateFn),
       updateFn (cache w1) = Some f ->
       updating (cache w1) = true ->
       exists w2 : World,
         exec backgroundRefresh w1 = Done (Returned tt) w2
         /\ calls w2 = calls w1 ++ [Background]
         /\ updating (cache w2) = false).
Proof.
  intros Hn Hv [Hlo Hhi].
  assert (Hpath : exec (GetWithCtx ctx) w
                  = exec (serveStale (Some v)) (tick w)).
  { rewrite exec_GetWithCtx. rewrite Hv, Hn. simpl.
    apply Z.ltb_ge in Hlo. rewrite Hlo.
    apply Z.ltb_lt in Hhi. rewrite Hhi. reflexivity. }
  split; [|split].
  - intros Hu. rewrite Hpath. unfold serveStale. simpl. rewrite Hu.
    reflexivity.
  - intros Hu. rewrite Hpath. unfold serveStale. simpl. rewrite Hu.
    reflexivity.
  - intros w1 f Hf Hu.
    destruct (exec_backgroundRefresh w1 Hf Hu) as (w2 & H1 & H2 & H3 & _).
    exists w2. repeat split; assumption.
Qed.

(** ** The synchronous refresh *)

Lemma exec_refreshAndLoad_success (w : World) (ctx : Ctx) (f : UpdateFn) :
  updateFn (cache w) = Some f ->
  snd (fst (f ctx (env w))) = None ->
  exec (refreshAndLoad ctx) w
  = Done (Returned (fst (fst (f ctx (env w))), nil))
         (with_cache
            (set_lastUpdateMs (Time_UnixMilli (clock w (reads w))))
            (tick (with_cache (set_val (Some (fst (fst (f ctx (env w))))))
                              (called ctx (snd (f ctx (env w))) w)))).
Proof.
  intros Hf He. unfold refreshAndLoad.
  rewrite exec_Call, (exec_update_success w ctx Hf He). reflexivity.
Qed.

Lemma exec_refreshAndLoad_failure (w : World) (ctx : Ctx) (f : UpdateFn)
    (e : Err) :
  updateFn (cache w) = Some f ->
  snd (fst (f ctx (env w))) = Some e ->
  exec (refreshAndLoad ctx) w
  = Done (Returned match lastGood (cache w) with
                   | Some v => (v, nil)
                   | None => (zeroT, Some e)
                   end)
         (called ctx (snd (f ctx (env w))) w).
Proof.
  intros Hf He. unfold refreshAndLoad, lastGood.
  rewrite exec_Call, (exec_update_failure w ctx Hf He).
  destruct (ReturnLastGood (opts (cache w))); simpl; [|reflexivity].
  destruct (val (cache w)) as [v|] eqn:Hv; simpl; [|reflexivity].
  rewrite Hv. reflexivity.
Qed.

Lemma exec_refreshAndLoad_Done (w : World) (ctx : Ctx) (f : UpdateFn) :
  updateFn (cache w) = Some f ->
  exists (r : T * error) (w' : World),
    exec (refreshAndLoad ctx) w = Done (Returned r) w'
    /\ calls w' = calls w ++ [ctx]
    /\ updating (cache w') = updating (cache w).
Proof.
  intros Hf.
  destruct (snd (fst (f ctx (env w)))) as [e|] eqn:He.
  - eexists; eexists. split.
    + apply exec_refreshAndLoad_failure; eassumption.
    + split; reflexivity.
  - eexists; eexists. split.
    + apply exec_refreshAndLoad_success; eassumption.
    + split; reflexivity.
Qed.

Lemma exec_recheckAndRefresh (w : World) (ctx : Ctx) (ttl0 : Duration) :
  exec (recheckAndRefresh ctx ttl0) w
  = match val (cache w) with
    | Some v =>
        if Sub (clock w (reads w)) (UnixMilli (lastUpdateMs (cache w)))
           <? ttl0
        then Done (Returned (v, nil)) (tick w)
        else exec (refreshAndLoad ctx) (tick w)
    | None => exec (refreshAndLoad ctx) (tick w)
    end.
Proof.
  unfold recheckAndRefresh. run_ops.
  destruct (Sub (clock w (reads w)) (UnixMilli (lastUpdateMs (cache w)))
            <? ttl0).
  - run_ops. destruct (val (cache w)) as [v|]; reflexivity.
  - destruct (val (cache w)); reflexivity.
Qed.

Lemma exec_lockedRefresh_held (w : World) (ctx : Ctx) (ttl0 : Duration) :
  updating (cache w) = true ->
  exec (lockedRefresh ctx ttl0) w = Blocked (lockedRefresh ctx ttl0) w.
Proof.
  intros Hu. unfold lockedRefresh. rewrite exec_Do. simpl. rewrite Hu.
  reflexivity.
Qed.

Lemma exec_lockedRefresh_free (w : World) (ctx : Ctx) (ttl0 : Duration)
    (r : T * error) (w' : World) :
  updating (cache w) = false ->
  exec (recheckAndRefresh ctx ttl0) (with_cache (set_updating true) w)
  = Done (Returned r) w' ->
  updating (cache w') = true ->
  exec (lockedRefresh ctx ttl0) w
  = Done (Returned r) (with_cache (set_updating false) w').
Proof.
  intros Hu Hx Hu'. unfold lockedRefresh. rewrite exec_Do. simpl do_op.
  rewrite Hu. rewrite exec_Defer, Hx. simpl. rewrite Hu'. reflexivity.
Qed.

(** What [run_call] makes of a call that reaches the synchronous
    refresh. *)
Lemma run_call_lockedRefresh (w w0 : World) (p : Prog (T * error))
    (ctx : Ctx) (ttl0 : Duration) (r : T * error) (w' : World) :
  exec p w = exec (lockedRefresh ctx ttl0) w0 ->
  updating (cache (if updating (cache w0) then run_goroutines w0 else w0))
  = false ->
  exec (recheckAndRefresh ctx ttl0) (guardAcquired w0)
  = Done (Returned r) w' ->
  updating (cache w') = true ->
  run_call p w = Some (Returned r, with_cache (set_updating false) w').
Proof.
  unfold run_call, guardAcquired. intros Hp Hfree Hx Hu'. rewrite Hp.
  destruct (updating (cache w0)) eqn:Hu.
  - rewrite (exec_lockedRefresh_held w0 ctx ttl0 Hu).
    rewrite (exec_lockedRefresh_free _ _ _ Hfree Hx Hu'). reflexivity.
  - rewrite (exec_lockedRefresh_free _ _ _ Hfree Hx Hu'). reflexivity.
Qed.

Lemma exec_GetWithCtx_locked (w : World) (ctx : Ctx) :
  isSome (val (cache w)) && (ageMs w <? Milliseconds (ttl (cache w)))
  = false ->
  NoWait (opts (cache w)) && isSome (val (cache w))
    && (ageMs w <? mul64 (Milliseconds (ttl (cache w))) 2) = false ->
  exec (GetWithCtx ctx) w = exec (lockedRefresh ctx (ttl (cache w))) (tick w).
Proof.
  intros H1 H2. rewrite exec_GetWithCtx, H1, H2. reflexivity.
Qed.

(** C4.  A call that reaches the synchronous refresh gets the mutex in the
    state [w1] (at once, or after the goroutine holding it has finished).
    If then the stored timestamp is within ttl of the clock and a value is
    stored, the call returns that value with a nil error, the refresh
    function is not called and the mutex is released.  If the re-check
    fails (no value is stored, or the timestamp is not within ttl), the
    refresh function is called, once, with the caller's context. *)
Theorem C4_recheck_under_the_guard (w : World) (ctx : Ctx) :
  isSome (val (cache w)) && (ageMs w <? Milliseconds (ttl (cache w)))
  = false ->
  NoWait (opts (cache w)) && isSome (val (cache w))
    && (ageMs w <? mul64 (Milliseconds (ttl (cache w))) 2) = false ->
  updating (cache (if updating (cache (tick w))
                   then run_goroutines (tick w) else tick w)) = false ->
  let w1 := guardAcquired (tick w) in
  let since := Sub (clock w1 (reads w1))
                   (UnixMilli (lastUpdateMs (cache w1))) in
  (forall v : T,
     val (cache w1) = Some v ->
     since < ttl (cache w) ->
     run_call (GetWithCtx ctx) w
     = Some (Returned (v, nil), with_cache (set_updating false) (tick w1))
     /\ calls (with_cache (set_updating false) (tick w1)) = calls w1)
  /\ (forall f : UpdateFn,
       updateFn (cache w1) = Some f ->
       val (cache w1) = None \/ ttl (cache w) <= since ->
       exists (r : T * error) (w' : World),
         run_call (GetWithCtx ctx) w = Some (Returned r, w')
         /\ calls w' = calls w1 ++ [ctx]
         /\ updating (cache w') = false).
Proof.
  intros Hfresh Hstale Hfree w1 since.
  pose proof (exec_GetWithCtx_locked w ctx Hfresh Hstale) as Hp.
  split.
  - intros v Hv Hs. split; [|reflexivity].
    eapply run_call_lockedRefresh; [exact Hp|exact Hfree| |reflexivity].
    rewrite exec_recheckAndRefresh. fold w1. rewrite Hv.
    apply Z.ltb_lt in Hs. fold since. rewrite Hs. reflexivity.
  - intros f Hf Hre.
    assert (Hx : exec (recheckAndRefresh ctx (ttl (cache w))) w1
                 = exec (refreshAndLoad ctx) (tick w1)).
    { rewrite exec_recheckAndRefresh. fold since.
      destruct Hre as [Hn|Hs].
      - rewrite Hn. reflexivity.
      - apply Z.ltb_ge in Hs. rewrite Hs.
        destruct (val (cache w1)); reflexivity. }
    destruct (exec_refreshAndLoad_Done (tick w1) ctx Hf)
      as (r & w' & Hr & Hc & Hu).
    exists r, (with_cache (set_updating false) w'). split; [|split].
    + eapply run_call_lockedRefresh; [exact Hp|exact Hfree| |].
      * fold w1. rewrite Hx. exact Hr.
      * rewrite Hu. reflexivity.
    + simpl. exact Hc.
    + reflexivity.
Qed.

(** ** Calls in a steady state *)

Lemma steady_ageMs (w : World) :
  steady w ->
  0 <= ageMs w
  /\ ageMs w * 1000000 <= age w < (ageMs w + 1) * 1000000.
Proof.
  intros (Httl & Hts & Hnow & Hmax & Hmono).
  specialize (Hmax (reads w)).
  assert (Hd : lastUpdateMs (cache w) <= clock w (reads w) / 1000000)
    by (apply Z.div_le_lower_bound; lia).
  assert (Hd' : clock w (reads w) / 1000000 <= clock w (reads w))
    by (apply Z.div_le_upper_bound; lia).
  pose proof (Z.div_mod (clock w (reads w)) 1000000 ltac:(lia)) as Hdm.
  pose proof (Z.mod_pos_bound (clock w (reads w)) 1000000 ltac:(lia)) as Hm.
  unfold ageMs, age, sub64, Time_UnixMilli, UnixMilli.
  rewrite (wrap64_small (z := clock w (reads w) / 1000000))
    by (unfold in_int64; lia).
  rewrite wrap64_small by (unfold in_int64; lia).
  lia.
Qed.

Lemma steady_not_fresh (w : World) :
  steady w ->
  ttl (cache w) <= age w ->
  (ageMs w <? Milliseconds (ttl (cache w))) = false.
Proof.
  intros Hs Hage. destruct (steady_ageMs Hs) as (H0 & _ & Hhi).
  apply Z.ltb_ge. apply Milliseconds_floor; lia.
Qed.

Lemma steady_not_stale (w : World) :
  steady w ->
  2 * ttl (cache w) <= age w ->
  (ageMs w <? mul64 (Milliseconds (ttl (cache w))) 2) = false.
Proof.
  intros Hs Hage. destruct (steady_ageMs Hs) as (H0 & _ & Hhi).
  destruct Hs as (Httl & _).
  apply Z.ltb_ge. rewrite (mul64_Milliseconds Httl).
  apply Milliseconds_twice_floor; lia.
Qed.

Lemma steady_since (w : World) :
  steady w ->
  ttl (cache w) <= age w ->
  ttl (cache w)
  <= Sub (clock w (S (reads w))) (UnixMilli (lastUpdateMs (cache w))).
Proof.
  intros Hs Hage.
  destruct Hs as (Httl & Hts & Hnow & Hmax & Hmono).
  apply Sub_ge; [exact Httl|]. unfold age in Hage.
  specialize (Hmono (reads w)). lia.
Qed.

Lemma set_updating_back (t : Cache) :
  updating t = false -> set_updating false (set_updating true t) = t.
Proof. destruct t; simpl; intros ->; reflexivity. Qed.

(** A call that reaches the synchronous refresh while the mutex is free
    and whose re-check fails: the refresh function is called and the call
    returns what lines 128-134 make of its result. *)
Lemma run_call_refresh (w : World) (ctx : Ctx) (f : UpdateFn) :
  isSome (val (cache w)) && (ageMs w <? Milliseconds (ttl (cache w)))
  = false ->
  NoWait (opts (cache w)) && isSome (val (cache w))
    && (ageMs w <? mul64 (Milliseconds (ttl (cache w))) 2) = false ->
  updating (cache w) = false ->
  updateFn (cache w) = Some f ->
  val (cache w) = None
  \/ ttl (cache w)
     <= Sub (clock w (S (reads w))) (UnixMilli (lastUpdateMs (cache w))) ->
  exists w' : World,
    run_call (GetWithCtx ctx) w
    = Some (Returned
              match snd (fst (f ctx (env w))) with
              | None => (fst (fst (f ctx (env w))), nil)
              | Some e =>
                  match lastGood (cache w) with
                  | Some v => (v, nil)
                  | None => (zeroT, Some e)
                  end
              end, w')
    /\ calls w' = calls w ++ [ctx]
    /\ updating (cache w') = false
    /\ (snd (fst (f ctx (env w))) <> None -> cache w' = cache w).
Proof.
  intros Hfresh Hstale Hu Hf Hre.
  pose proof (exec_GetWithCtx_locked w ctx Hfresh Hstale) as Hp.
  assert (Hfree : updating (cache (if updating (cache (tick w))
                                   then run_goroutines (tick w)
                                   else tick w)) = false).
  { simpl. rewrite Hu. exact Hu. }
  assert (Hw1 : guardAcquired (tick w)
                = with_cache (set_updating true) (tick w)).
  { unfold guardAcquired. simpl. rewrite Hu. reflexivity. }
  assert (Hx : exec (recheckAndRefresh ctx (ttl (cache w)))
                    (guardAcquired (tick w))
               = exec (refreshAndLoad ctx)
                      (tick (with_cache (set_updating true) (tick w)))).
  { rewrite Hw1, exec_recheckAndRefresh. simpl.
    destruct Hre as [Hn|Hs].
    - rewrite Hn. reflexivity.
    - apply Z.ltb_ge in Hs. rewrite Hs.
      destruct (val (cache w)); reflexivity. }
  destruct (snd (fst (f ctx (env w)))) as [e|] eqn:He.
  - eexists. split; [|split; [|split]].
    + eapply run_call_lockedRefresh; [exact Hp|exact Hfree| |].
      * rewrite Hx.
        rewrite (@exec_refreshAndLoad_failure
                   (tick (with_cache (set_updating true) (tick w)))
                   ctx f e Hf He).
        reflexivity.
      * reflexivity.
    + reflexivity.
    + reflexivity.
    + intros _. simpl. apply set_updating_back. exact Hu.
  - eexists. split; [|split; [|split]].
    + eapply run_call_lockedRefresh; [exact Hp|exact Hfree| |].
      * rewrite Hx.
        rewrite (@exec_refreshAndLoad_success
                   (tick (with_cache (set_updating true) (tick w)))
                   ctx f Hf He).
        reflexivity.
      * reflexivity.
    + reflexivity.
    + reflexivity.
    + intros H. congruence.
Qed.

(** C2 (as amended).  A value is stored, its age is at least ttl, and the
    call is not served from the stale window ([NoWait] is not set, or the
    age is at least twice ttl); the mutex is free and the clock steady.
    If the refresh function returns an error, [GetWithCtx] returns the
    stored value with a nil error when [ReturnLastGood] is set, and the
    zero value of [T] with that error when it is not.  The refresh
    function has been called once, with the caller's context, and the
    cache is as it was. *)
Theorem C2_failed_refresh_of_expired_value (w : World) (ctx : Ctx) (v : T)
    (f : UpdateFn) (e : Err) :
  steady w ->
  updating (cache w) = false ->
  val (cache w) = Some v ->
  ttl (cache w) <= age w ->
  NoWait (opts (cache w)) = false \/ 2 * ttl (cache w) <= age w ->
  updateFn (cache w) = Some f ->
  snd (fst (f ctx (env w))) = Some e ->
  exists w' : World,
    run_call (GetWithCtx ctx) w
    = Some (Returned (if ReturnLastGood (opts (cache w))
                      then (v, nil) else (zeroT, Some e)), w')
    /\ calls w' = calls w ++ [ctx]
    /\ cache w' = cache w.
Proof.
  intros Hs Hu Hv Hage Hwin Hf He.
  assert (Hfresh : isSome (val (cache w))
                   && (ageMs w <? Milliseconds (ttl (cache w))) = false).
  { apply andb_false_intro2. apply steady_not_fresh; assumption. }
  assert (Hstale : NoWait (opts (cache w)) && isSome (val (cache w))
                   && (ageMs w <? mul64 (Milliseconds (ttl (cache w))) 2)
                   = false).
  { destruct Hwin as [Hn|H2].
    - rewrite Hn. reflexivity.
    - apply andb_false_intro2. apply steady_not_stale; assumption. }
  destruct (@run_call_refresh w ctx f Hfresh Hstale Hu Hf
              (or_intror (steady_since Hs Hage)))
    as (w' & Hr & Hc & _ & Hk).
  exists w'. rewrite He in Hr. unfold lastGood in Hr. rewrite Hv in Hr.
  split; [|split].
  - rewrite Hr. destruct (ReturnLastGood (opts (cache w))); reflexivity.
  - exact Hc.
  - apply Hk. rewrite He. discriminate.
Qed.

(** C6 (as amended).  The mutex is free and the clock steady.  When no
    value is stored, or the age of the stored value is at least twice
    ttl, or [NoWait] is not set and the age is at least ttl, [GetWithCtx]
    calls the refresh function, once and with the caller's context, and
    returns: the new value with a nil error when the refresh succeeds;
    when it fails, the zero value of [T] with the error, unless
    [ReturnLastGood] is set and a value is stored, in which case it
    returns that stored value with a nil error. *)
Theorem C6_synchronous_refresh_with_callers_context (w : World) (ctx : Ctx)
    (f : UpdateFn) :
  steady w ->
  updating (cache w) = false ->
  updateFn (cache w) = Some f ->
  val (cache w) = None
  \/ 2 * ttl (cache w) <= age w
  \/ (NoWait (opts (cache w)) = false /\ ttl (cache w) <= age w) ->
  exists w' : World,
    run_call (GetWithCtx ctx) w
    = Some (Returned
              match snd (fst (f ctx (env w))) with
              | None => (fst (fst (f ctx (env w))), nil)
              | Some e =>
                  match lastGood (cache w) with
                  | Some v => (v, nil)
                  | None => (zeroT, Some e)
                  end
              end, w')
    /\ calls w' = calls w ++ [ctx]
    /\ updating (cache w') = false.
Proof.
  intros Hs Hu Hf Hcase.
  destruct (steady_ageMs Hs) as (Hage0 & Hlo & _).
  assert (Hpaths :
    (isSome (val (cache w)) && (ageMs w <? Milliseconds (ttl (cache w)))
     = false)
    /\ (NoWait (opts (cache w)) && isSome (val (cache w))
        && (ageMs w <? mul64 (Milliseconds (ttl (cache w))) 2) = false)
    /\ (val (cache w) = None
        \/ ttl (cache w)
           <= Sub (clock w (S (reads w)))
                  (UnixMilli (lastUpdateMs (cache w))))).
  { destruct Hcase as [Hn|[H2|[Hn Hage]]].
    - rewrite Hn. simpl. rewrite andb_false_r. auto.
    - assert (Hage : ttl (cache w) <= age w) by lia.
      split; [|split].
      + apply andb_false_intro2. apply steady_not_fresh; assumption.
      + apply andb_false_intro2. apply steady_not_stale; assumption.
      + right. apply steady_since; assumption.
    - split; [|split].
      + apply andb_false_intro2. apply steady_not_fresh; assumption.
      + rewrite Hn. reflexivity.
      + right. apply steady_since; assumption. }
  destruct Hpaths as (Hfresh & Hstale & Hre).
  destruct (@run_call_refresh w ctx f Hfresh Hstale Hu Hf Hre)
    as (w' & Hr & Hc & Hm & _).
  exists w'. repeat split; assumption.
Qed.

(** C9 (as amended).  The comparisons of the fresh path and of the stale
    window use [ttl.Milliseconds()].  In a steady state:
    - for a ttl of less than a millisecond neither is ever taken: every
      call goes to the synchronous refresh; there the re-check compares
      with the ttl itself, at nanosecond precision, so a call made while
      the stored timestamp is within ttl of the clock still returns the
      stored value without calling the refresh function;
    - for a ttl with a fraction of a millisecond, [ttl.Milliseconds()]
      milliseconds are less than ttl, and at that age, which is less than
      ttl, a call does not take the fresh path. *)
Theorem C9_ttl_truncated_to_milliseconds (w : World) (ctx : Ctx) :
  steady w ->
  (0 <= ttl (cache w) < Millisecond ->
     exec (GetWithCtx ctx) w
     = exec (lockedRefresh ctx (ttl (cache w))) (tick w)
     /\ (forall v : T,
          updating (cache w) = false ->
          val (cache w) = Some v ->
          Sub (clock w (S (reads w))) (UnixMilli (lastUpdateMs (cache w)))
          < ttl (cache w) ->
          exists w' : World,
            run_call (GetWithCtx ctx) w = Some (Returned (v, nil), w')
            /\ calls w' = calls w))
  /\ (0 < ttl (cache w) ->
      ttl (cache w) mod 1000000 <> 0 ->
      Milliseconds (ttl (cache w)) * 1000000 < ttl (cache w)
      /\ (ageMs w = Milliseconds (ttl (cache w)) ->
          exec (GetWithCtx ctx) w
          = if NoWait (opts (cache w)) && isSome (val (cache w))
               && (ageMs w <? mul64 (Milliseconds (ttl (cache w))) 2)
            then exec (serveStale (val (cache w))) (tick w)
            else exec (lockedRefresh ctx (ttl (cache w))) (tick w))).
Proof.
  intros Hs. destruct (steady_ageMs Hs) as (Hage0 & _). split.
  - intros Hsub. unfold Millisecond in Hsub.
    assert (Hms : Milliseconds (ttl (cache w)) = 0)
      by (apply Milliseconds_sub_ms; exact Hsub).
    assert (Hfresh : isSome (val (cache w))
                     && (ageMs w <? Milliseconds (ttl (cache w))) = false).
    { apply andb_false_intro2. apply Z.ltb_ge. lia. }
    assert (Hstale : NoWait (opts (cache w)) && isSome (val (cache w))
                     && (ageMs w <? mul64 (Milliseconds (ttl (cache w))) 2)
                     = false).
    { apply andb_false_intro2. apply Z.ltb_ge.
      rewrite Hms. unfold mul64, wrap64. simpl. exact Hage0. }
    pose proof (exec_GetWithCtx_locked w ctx Hfresh Hstale) as Hp.
    split; [exact Hp|].
    intros v Hu Hv Hsince.
    eexists. split.
    + eapply run_call_lockedRefresh; [exact Hp| | |].
      * simpl. rewrite Hu. exact Hu.
      * unfold guardAcquired. simpl updating. rewrite Hu.
        rewrite exec_recheckAndRefresh. simpl. rewrite Hv.
        apply Z.ltb_lt in Hsince. rewrite Hsince. reflexivity.
      * reflexivity.
    + reflexivity.
  - intros Hpos Hfrac. split.
    + apply Milliseconds_fraction; assumption.
    + intros Hage. rewrite exec_GetWithCtx.
      replace (ageMs w <? Milliseconds (ttl (cache w))) with false
        by (symmetry; apply Z.ltb_ge; lia).
      rewrite andb_false_r. reflexivity.
Qed.

(** ** What a goroutine knows about the stored value *)

Lemma keeps_value_consequence (R : Type) (p : Prog R) :
  forall (has : bool) (Q Q' : R -> bool -> Prop),
    (forall r h, Q r h -> Q' r h) ->
    keeps_value p has Q -> keeps_value p has Q'.
Proof.
  induction p as [R r|R why|R X op k IH|R X callee IHc k IHk|R body IHb k IHk
                 |R d IHd body IHb]; intros has Q Q' HQ; simpl.
  - apply HQ.
  - auto.
  - intros [Hp Hk]. split; [exact Hp|].
    intros x Hx. eapply IH; [exact HQ|]. apply Hk. exact Hx.
  - apply IHc. intros x h. apply IHk. exact HQ.
  - intros [Hb Hk]. split; [exact Hb|]. eapply IHk; eassumption.
  - intros [Hb Hd]. split; [|exact Hd].
    eapply IHb; [|exact Hb]. intros r h. simpl. apply IHd.
    intros _ h'. apply HQ.
Qed.

Lemma isSome_true (A : Type) (o : option A) : isSome o = true <-> o <> None.
Proof. destruct o; simpl; split; congruence. Qed.

Lemma do_op_sound (X : Type) (op : Op X) (w w' : World) (x : X)
    (has : bool) :
  do_op op w = Ok x w' ->
  sound has w ->
  consistent op x has
  /\ sound (learns op x has) w'
  /\ (val (cache w) <> None -> val (cache w') <> None)
  /\ goroutines w' = goroutines w
  /\ (permitted op has -> stamped_after_stored w -> stamped_after_stored w').
Proof.
  unfold sound, stamped_after_stored.
  destruct op; simpl; intros H Hs;
    repeat match type of H with
           | context [match ?c with _ => _ end] => destruct c eqn:?
           end;
    inversion H; subst; simpl; repeat split; auto; try congruence.
  - intros Hh. apply isSome_true. auto.
  - intros Hh. apply orb_true_iff in Hh. destruct Hh as [Hh|Hh]; auto.
    apply isSome_true. exact Hh.
Qed.

Lemma do_op_Crash (X : Type) (op : Op X) (w : World) (why : PanicKind) :
  do_op op w = Crash why -> why <> NilDeref.
Proof.
  destruct op; simpl; intros H;
    repeat match type of H with
           | context [match ?c with _ => _ end] => destruct c eqn:?
           end;
    inversion H; subst; discriminate.
Qed.

Lemma outcome_of_finish (R : Type) (p : Prog R) (o : Outcome R) :
  outcome_of p = Some o -> p = finish o.
Proof. destruct p; simpl; intros H; inversion H; reflexivity. Qed.

Lemma step_keeps_value (R : Type) (p : Prog R) :
  forall (has : bool) (Q : R -> bool -> Prop) (w w' : World) (l : Label)
         (p' : Prog R),
    keeps_value p has Q ->
    sound has w ->
    stamped_after_stored w ->
    step p w = Some (l, p', w') ->
    (exists has' : bool, sound has' w' /\ keeps_value p' has' Q)
    /\ stamped_after_stored w'
    /\ (val (cache w) <> None -> val (cache w') <> None)
    /\ (goroutines w' = goroutines w
        \/ exists g : Prog unit,
             goroutines w' = goroutines w ++ [g] /\ thread_ok g w').
Proof.
  induction p as [R r|R why|R X op k IH|R X callee IHc k IHk|R body IHb k IHk
                 |R d IHd body IHb];
    intros has Q w w' l p' Hk Hs Hst Hstep; simpl in Hstep.
  - discriminate.
  - discriminate.
  - destruct Hk as [Hperm Hk].
    destruct (do_op op w) as [x w1| |why] eqn:E; inversion Hstep; subst.
    + pose proof E as E'. eapply do_op_sound in E'; [|exact Hs].
      destruct E' as (Hc & Hs' & Hv & Hg & Hst').
      repeat split; auto.
      exists (learns op x has). split; [exact Hs'|]. apply Hk. exact Hc.
    + repeat split; auto.
      exists has. split; [exact Hs|]. simpl.
      eapply do_op_Crash; eassumption.
  - simpl in Hk.
    destruct (outcome_of callee) as [[x|why]|] eqn:E.
    + inversion Hstep; subst. apply outcome_of_finish in E. subst callee.
      simpl in Hk. repeat split; auto. exists has. split; assumption.
    + inversion Hstep; subst. apply outcome_of_finish in E. subst callee.
      simpl in Hk. repeat split; auto. exists has. split; assumption.
    + destruct (step callee w) as [[[l1 c1] w1]|] eqn:E1;
        inversion Hstep; subst.
      destruct (IHc _ _ _ _ _ _ Hk Hs Hst E1)
        as ((has' & Hs' & Hk') & Hst' & Hv & Hg).
      repeat split; auto. exists has'. split; assumption.
  - inversion Hstep; subst. destruct Hk as [Hb Hk].
    repeat split; auto.
    + exists has. split; assumption.
    + right. exists body. split; [reflexivity|].
      exists has. split; assumption.
  - destruct Hk as [Hb Hd].
    destruct (outcome_of body) as [o|] eqn:E.
    + inversion Hstep; subst. apply outcome_of_finish in E. subst body.
      repeat split; auto. exists has. split; [exact Hs|].
      destruct o as [r|why]; simpl in *.
      * exact Hb.
      * eapply keeps_value_consequence; [|apply Hd]. intros _ _ _. exact Hb.
    + destruct (step body w) as [[[l1 b1] w1]|] eqn:E1;
        inversion Hstep; subst.
      destruct (IHb _ _ _ _ _ _ Hb Hs Hst E1)
        as ((has' & Hs' & Hk') & Hst' & Hv & Hg).
      repeat split; auto. exists has'. simpl. repeat split; assumption.
Qed.

(** The bodies of the package keep the value. *)

Ltac kv_simpl := cbn [keeps_value permitted consistent learns].

Lemma keeps_value_update (ctx : Ctx) (has : bool) :
  keeps_value (update ctx) has (fun err h => err = None -> h = true).
Proof.
  unfold update. simpl. split; [exact I|]. intros r _.
  destruct (snd r) as [e|]; simpl.
  - split; [exact I|]. intros o _.
    destruct (ReturnLastGood o); simpl.
    + split; [exact I|]. intros v Hv.
      destruct (isSome v) eqn:E; simpl.
      * intros _. apply orb_true_r.
      * discriminate.
    + discriminate.
  - split; [exact I|]. intros _ _. split; [exact I|]. intros now _.
    split; [reflexivity|]. intros _ _. reflexivity.
Qed.

Lemma keeps_value_deref (R : Type) (v : option T) (k : T -> Prog R)
    (has : bool) (Q : R -> bool -> Prop) :
  isSome v = true ->
  (forall x : T, keeps_value (k x) has Q) ->
  keeps_value (deref v k) has Q.
Proof. destruct v as [x|]; simpl; [auto|discriminate]. Qed.

Lemma keeps_value_backgroundRefresh (has : bool) :
  keeps_value backgroundRefresh has (fun _ _ => True).
Proof.
  unfold backgroundRefresh. kv_simpl. split.
  - eapply keeps_value_consequence; [|apply keeps_value_update].
    intros err h _. kv_simpl. split; [exact I|]. intros _ _. exact I.
  - intros has'. split; [exact I|]. intros _ _. exact I.
Qed.

Lemma keeps_value_refreshAndLoad (ctx : Ctx) (has : bool) :
  keeps_value (refreshAndLoad ctx) has (fun _ _ => True).
Proof.
  unfold refreshAndLoad. kv_simpl.
  eapply keeps_value_consequence; [|apply keeps_value_update].
  intros err h Hh. destruct err as [e|]; kv_simpl; [exact I|].
  split; [exact I|]. intros v Hv.
  apply keeps_value_deref; [|intros x; exact I].
  apply Hv. apply Hh. reflexivity.
Qed.

Lemma keeps_value_recheckAndRefresh (ctx : Ctx) (ttl0 : Duration)
    (has : bool) :
  keeps_value (recheckAndRefresh ctx ttl0) has (fun _ _ => True).
Proof.
  unfold recheckAndRefresh. kv_simpl. split; [exact I|]. intros ms _.
  split; [exact I|]. intros now _.
  destruct (Sub now (UnixMilli ms) <? ttl0).
  - kv_simpl. split; [exact I|]. intros v Hv.
    destruct (isSome v) eqn:E.
    + apply keeps_value_deref; [exact E|intros x; exact I].
    + apply keeps_value_refreshAndLoad.
  - apply keeps_value_refreshAndLoad.
Qed.

Lemma keeps_value_serveStale (v : option T) (has : bool) :
  isSome v = true ->
  keeps_value (serveStale v) has (fun _ _ => True).
Proof.
  intros Hv. unfold serveStale. kv_simpl. split; [exact I|].
  intros locked _. destruct locked; kv_simpl.
  - split; [apply keeps_value_backgroundRefresh|].
    apply keeps_value_deref; [exact Hv|intros x; exact I].
  - apply keeps_value_deref; [exact Hv|intros x; exact I].
Qed.

Lemma keeps_value_lockedRefresh (ctx : Ctx) (ttl0 : Duration) (has : bool) :
  keeps_value (lockedRefresh ctx ttl0) has (fun _ _ => True).
Proof.
  unfold lockedRefresh. kv_simpl. split; [exact I|]. intros _ _. split.
  - eapply keeps_value_consequence;
      [|apply keeps_value_recheckAndRefresh].
    intros r h _. kv_simpl. split; [exact I|]. intros _ _. exact I.
  - intros has'. split; [exact I|]. intros _ _. exact I.
Qed.

Lemma keeps_value_GetWithCtx (ctx : Ctx) (has : bool) :
  keeps_value (GetWithCtx ctx) has (fun _ _ => True).
Proof.
  unfold GetWithCtx. kv_simpl. split; [exact I|]. intros v Hv.
  split; [exact I|]. intros ttl0 _.
  split; [exact I|]. intros vTime _.
  split; [exact I|]. intros now _.
  destruct (isSome v) eqn:E; kv_simpl.
  - destruct (sub64 (Time_UnixMilli now) vTime <? Milliseconds ttl0).
    + apply keeps_value_deref; [exact E|intros x; exact I].
    + kv_simpl. split; [exact I|]. intros o _.
      destruct (NoWait o
                && (sub64 (Time_UnixMilli now) vTime
                    <? mul64 (Milliseconds ttl0) 2)) eqn:E2.
      * replace (NoWait o && true
                 && (sub64 (Time_UnixMilli now) vTime
                     <? mul64 (Milliseconds ttl0) 2)) with true
          by (rewrite andb_true_r; symmetry; exact E2).
        apply keeps_value_serveStale. exact E.
      * replace (NoWait o && true
                 && (sub64 (Time_UnixMilli now) vTime
                     <? mul64 (Milliseconds ttl0) 2)) with false
          by (rewrite andb_true_r; symmetry; exact E2).
        apply keeps_value_lockedRefresh.
  - split; [exact I|]. intros o _.
    rewrite andb_false_r. kv_simpl. apply keeps_value_lockedRefresh.
Qed.

(** Running a body that keeps the value. *)

Lemma exec_keeps_value (R : Type) (p : Prog R) :
  forall (has : bool) (Q : R -> bool -> Prop) (w : World),
    keeps_value p has Q ->
    sound has w ->
    (val (cache w) <> None -> val (cache (final (exec p w))) <> None)
    /\ exec_kept Q (exec p w).
Proof.
  induction p as [R r|R why|R X op k IH|R X callee IHc k IHk|R body IHb k IHk
                 |R d IHd body IHb];
    intros has Q w Hk Hs.
  - simpl. split; [auto|]. exists has. split; assumption.
  - simpl. split; [auto|]. exact Hk.
  - rewrite exec_Do. destruct Hk as [Hperm Hk].
    destruct (do_op op w) as [x w1| |why] eqn:E.
    + pose proof E as E'. eapply do_op_sound in E'; [|exact Hs].
      destruct E' as (Hc & Hs' & Hv & _).
      destruct (IH x _ Q w1 (Hk x Hc) Hs') as [Hv' Hr].
      split; [auto|exact Hr].
    + simpl. split; [auto|]. exists has. split; [exact Hs|].
      split; assumption.
    + simpl. split; [auto|]. eapply do_op_Crash; eassumption.
  - rewrite exec_Call. cbn [keeps_value] in Hk.
    destruct (IHc has _ w Hk Hs) as [Hv Hr].
    destruct (exec callee w) as [[x|why] w1|c1 w1]; simpl in Hv, Hr.
    + destruct Hr as (has1 & Hs1 & Hk1).
      destruct (IHk x has1 Q w1 Hk1 Hs1) as [Hv' Hr'].
      split; [auto|exact Hr'].
    + split; [exact Hv|exact Hr].
    + split; [exact Hv|]. destruct Hr as (has1 & Hs1 & Hk1).
      exists has1. split; assumption.
  - destruct Hk as [_ Hk]. simpl exec.
    apply (IHk has Q (spawn body w) Hk). exact Hs.
  - rewrite exec_Defer. destruct Hk as [Hb Hd].
    destruct (IHb has _ w Hb Hs) as [Hv Hr].
    destruct (exec body w) as [[r|why] w1|b1 w1]; simpl in Hv, Hr.
    + destruct Hr as (has1 & Hs1 & Hk1).
      destruct (IHd has1 _ w1 Hk1 Hs1) as [Hv' Hr'].
      destruct (exec d w1) as [[[]|why] w2|d1 w2]; simpl in Hv', Hr'.
      * split; [auto|exact Hr'].
      * split; [auto|exact Hr'].
      * split; [auto|]. destruct Hr' as (has2 & Hs2 & Hk2).
        exists has2. split; assumption.
    + assert (Hs1 : sound false w1) by (intros H; discriminate).
      destruct (IHd false _ w1 (Hd false) Hs1) as [Hv' Hr'].
      destruct (exec d w1) as [[[]|why2] w2|d1 w2]; simpl in Hv', Hr'.
      * split; [auto|exact Hr].
      * split; [auto|exact Hr'].
      * split; [auto|]. destruct Hr' as (has2 & Hs2 & Hk2).
        exists has2. split; [exact Hs2|]. cbn [keeps_value finish].
        eapply keeps_value_consequence; [|exact Hk2].
        intros _ _ _. exact Hr.
    + split; [exact Hv|]. destruct Hr as (has1 & Hs1 & Hk1).
      exists has1. split; [exact Hs1|]. split; assumption.
Qed.

(** ** Every interleaving keeps the value *)

Lemma thread_ok_stable (R : Type) (p : Prog R) (w w' : World) :
  (val (cache w) <> None -> val (cache w') <> None) ->
  thread_ok p w -> thread_ok p w'.
Proof.
  intros Hv (has & Hs & Hk). exists has. split; [|exact Hk].
  intros Hh. apply Hv. apply Hs. exact Hh.
Qed.

Lemma Forall_set_nth (A : Type) (P : A -> Prop) (l : list A) :
  forall (n : nat) (y : A),
    Forall P l -> P y -> Forall P (set_nth n y l).
Proof.
  induction l as [|a l IH]; intros n y Hl Hy; simpl.
  - constructor.
  - inversion Hl; subst. destruct n as [|n].
    + constructor; assumption.
    + constructor; [assumption|]. apply IH; assumption.
Qed.

Lemma Forall_nth_error (A : Type) (P : A -> Prop) (l : list A) :
  forall (n : nat) (x : A),
    Forall P l -> nth_error l n = Some x -> P x.
Proof.
  induction l as [|a l IH]; intros n x Hl Hn.
  - destruct n; discriminate.
  - inversion Hl; subst. destruct n as [|n]; simpl in Hn.
    + inversion Hn; subst. assumption.
    + eapply IH; eassumption.
Qed.

Lemma Forall_thread_ok_stable (R : Type) (l : list (Prog R))
    (w w' : World) :
  (val (cache w) <> None -> val (cache w') <> None) ->
  Forall (fun p => thread_ok p w) l -> Forall (fun p => thread_ok p w') l.
Proof.
  intros Hv Hl. eapply Forall_impl; [|exact Hl].
  intros p. apply thread_ok_stable. exact Hv.
Qed.

Lemma goroutines_ok_after (w w' : World) :
  (val (cache w) <> None -> val (cache w') <> None) ->
  goroutines w' = goroutines w
  \/ (exists g : Prog unit,
        goroutines w' = goroutines w ++ [g] /\ thread_ok g w') ->
  Forall (fun g => thread_ok g w) (goroutines w) ->
  Forall (fun g => thread_ok g w') (goroutines w').
Proof.
  intros Hv Hg Hl.
  assert (Hl' : Forall (fun g => thread_ok g w') (goroutines w))
    by (eapply Forall_thread_ok_stable; eassumption).
  destruct Hg as [Hg|(g & Hg & Hok)]; rewrite Hg.
  - exact Hl'.
  - apply Forall_app. split; [exact Hl'|]. constructor; [exact Hok|constructor].
Qed.

Lemma sched_step_pool_ok (tid : Tid) (l : Label) (P P' : Pool) :
  pool_ok P -> sched_step tid P = Some (l, P') -> pool_ok P'.
Proof.
  intros (Hst & Hc & Hg) Hstep. destruct tid as [i|j]; simpl in Hstep.
  - destruct (nth_error (callers P) i) as [p|] eqn:En; [|discriminate].
    destruct (step p (shared P)) as [[[l1 p1] w1]|] eqn:Es; [|discriminate].
    inversion Hstep; subst. clear Hstep.
    assert (Hp : thread_ok p (shared P))
      by (eapply (@Forall_nth_error _ (fun p => thread_ok p (shared P)));
          eassumption).
    destruct Hp as (has & Hs & Hk).
    assert (Hstep := Es).
    eapply step_keeps_value in Hstep; [|eassumption|eassumption|eassumption].
    destruct Hstep as (Hok & Hst' & Hv & Hgs).
    split; [exact Hst'|]. split; simpl.
    + apply Forall_set_nth; [|exact Hok].
      eapply Forall_thread_ok_stable; eassumption.
    + eapply goroutines_ok_after; eassumption.
  - destruct (nth_error (goroutines (shared P)) j) as [g|] eqn:En;
      [|discriminate].
    destruct (step g (shared P)) as [[[l1 g1] w1]|] eqn:Es; [|discriminate].
    inversion Hstep; subst. clear Hstep.
    assert (Hp : thread_ok g (shared P))
      by (eapply (@Forall_nth_error _ (fun g => thread_ok g (shared P)));
          eassumption).
    destruct Hp as (has & Hs & Hk).
    assert (Hstep := Es).
    eapply step_keeps_value in Hstep; [|eassumption|eassumption|eassumption].
    destruct Hstep as (Hok & Hst' & Hv & Hgs).
    split; [exact Hst'|]. split; simpl.
    + eapply (@Forall_thread_ok_stable _ _ (shared P)); [exact Hv|exact Hc].
    + apply Forall_set_nth.
      * eapply (@Forall_thread_ok_stable _ _ w1); [intros H; exact H|].
        eapply goroutines_ok_after; eassumption.
      * eapply (@thread_ok_stable _ _ w1); [intros H; exact H|exact Hok].
Qed.

Lemma pstep_pool_ok (P P' : Pool) (ls : list Label) :
  pool_ok P -> pstep P ls P' -> pool_ok P'.
Proof.
  intros Hok Hstep. destruct Hstep as [tid l P P' Hs|ctx P].
  - eapply sched_step_pool_ok; eassumption.
  - destruct Hok as (Hst & Hc & Hg). split; [exact Hst|]. split; simpl.
    + apply Forall_app. split; [exact Hc|].
      constructor; [|constructor].
      exists false. split; [intros H; discriminate|].
      apply keeps_value_GetWithCtx.
    + exact Hg.
Qed.

Lemma reachable_pool_ok (P0 P : Pool) (tr : list Label) :
  pool_ok P0 -> reachable P0 tr P -> pool_ok P.
Proof.
  intros H0 Hr. induction Hr as [|tr ls P P' Hr IH Hs].
  - exact H0.
  - eapply pstep_pool_ok; eassumption.
Qed.

Lemma pool_ok_start (t : Cache) (e : Env) (clk : nat -> Time) :
  pool_ok (start t e clk).
Proof.
  split; [|split]; simpl.
  - intros H. exfalso. apply H. reflexivity.
  - constructor.
  - constructor.
Qed.

(** ** A stored value is never taken away *)

Lemma do_op_val_stable (X : Type) (op : Op X) (w w' : World) (x : X) :
  do_op op w = Ok x w' ->
  val (cache w) <> None -> val (cache w') <> None.
Proof.
  intros H. eapply do_op_sound with (has := false) in H.
  - destruct H as (_ & _ & Hv & _). exact Hv.
  - intros Hf. discriminate.
Qed.

Lemma exec_val_stable (R : Type) (p : Prog R) :
  forall w : World,
    val (cache w) <> None -> val (cache (final (exec p w))) <> None.
Proof.
  induction p as [R r|R why|R X op k IH|R X callee IHc k IHk|R body IHb k IHk
                 |R d IHd body IHb]; intros w Hv.
  - exact Hv.
  - exact Hv.
  - rewrite exec_Do. destruct (do_op op w) as [x w1| |why] eqn:E; simpl.
    + apply IH. eapply do_op_val_stable; eassumption.
    + exact Hv.
    + exact Hv.
  - rewrite exec_Call. specialize (IHc w Hv).
    destruct (exec callee w) as [[x|why] w1|c1 w1]; simpl in *.
    + apply IHk. exact IHc.
    + exact IHc.
    + exact IHc.
  - simpl exec. apply IHk. exact Hv.
  - rewrite exec_Defer. specialize (IHb w Hv).
    destruct (exec body w) as [o w1|b1 w1]; simpl in *.
    + specialize (IHd w1 IHb).
      destruct (exec d w1) as [[x|why] w2|d1 w2]; simpl in *; exact IHd.
    + exact IHb.
Qed.

Lemma fold_goroutines_val_stable (gs : list (Prog unit)) :
  forall w : World,
    val (cache w) <> None ->
    val (cache (fold_left (@run_goroutine _ _ _ _) gs w)) <> None.
Proof.
  induction gs as [|g gs IH]; intros w Hv; simpl.
  - exact Hv.
  - apply IH. unfold run_goroutine.
    pose proof (exec_val_stable g w Hv) as H.
    destruct (exec g w) as [o w1|g1 w1]; simpl in *; exact H.
Qed.

Lemma run_goroutines_val_stable (w : World) :
  val (cache w) <> None -> val (cache (run_goroutines w)) <> None.
Proof.
  intros Hv. unfold run_goroutines.
  apply fold_goroutines_val_stable. exact Hv.
Qed.

(** What a schedule goes through can be reached. *)
Lemma after_sched_reachable (sched : list Tid) :
  forall (P0 P : Pool) (tr : list Label),
    reachable P0 tr P ->
    reachable P0 (tr ++ sched_labels sched P) (after_sched sched P).
Proof.
  unfold sched_labels.
  induction sched as [|tid sched IH]; intros P0 P tr Hr; simpl.
  - rewrite app_nil_r. exact Hr.
  - destruct (sched_step tid P) as [[l P1]|] eqn:E.
    + simpl.
      replace (tr ++ l :: map (fun s => snd (fst s)) (run_sched sched P1))
        with ((tr ++ [l]) ++ map (fun s => snd (fst s)) (run_sched sched P1))
        by (rewrite <- app_assoc; reflexivity).
      apply IH. eapply reachable_step; [exact Hr|].
      eapply pstep_thread. exact E.
    + apply IH. exact Hr.
Qed.

(** ** Every interleaving stores the value before its timestamp *)

Ltac od_simpl :=
  cbn [ordered store_in_turn owes_after stores_value stores_stamp].

Lemma ordered_consequence (R : Type) (p : Prog R) :
  forall (owes : bool) (Q Q' : R -> bool -> Prop),
    (forall r b, Q r b -> Q' r b) ->
    ordered p owes Q -> ordered p owes Q'.
Proof.
  induction p as [R r|R why|R X op k IH|R X callee IHc k IHk|R body IHb k IHk
                 |R d IHd body IHb]; intros owes Q Q' HQ; simpl.
  - apply HQ.
  - auto.
  - intros [Hp Hk]. split; [exact Hp|].
    intros x. eapply IH; [exact HQ|]. apply Hk.
  - apply IHc. intros x b. apply IHk. exact HQ.
  - intros [Hb Hk]. split; [exact Hb|]. eapply IHk; eassumption.
  - intros [Hb Hd]. split; [|exact Hd].
    eapply IHb; [|exact Hb]. intros r b. simpl. apply IHd.
    intros _ b'. apply HQ.
Qed.

Lemma stores_not_both (X : Type) (op : Op X) :
  stores_value op = true -> stores_stamp op = false.
Proof. destruct op; simpl; congruence. Qed.

Lemma do_op_goroutines (X : Type) (op : Op X) (w w' : World) (x : X) :
  do_op op w = Ok x w' -> goroutines w' = goroutines w.
Proof.
  intros H. eapply do_op_sound with (has := false) in H.
  - destruct H as (_ & _ & _ & Hg & _). exact Hg.
  - intros Hf. discriminate.
Qed.

Lemma step_ordered (R : Type) (p : Prog R) :
  forall (owes : bool) (Q : R -> bool -> Prop) (w w' : World) (l : Label)
         (p' : Prog R),
    ordered p owes Q ->
    step p w = Some (l, p', w') ->
    (exists owes' : bool,
       ordered p' owes' Q
       /\ (Nat.b2n owes' + Nat.b2n (stamp_stored l)
           = Nat.b2n owes + Nat.b2n (value_stored l))%nat)
    /\ (goroutines w' = goroutines w
        \/ exists g : Prog unit,
             goroutines w' = goroutines w ++ [g]
             /\ ordered g false (fun _ _ => True)).
Proof.
  induction p as [R r|R why|R X op k IH|R X callee IHc k IHk|R body IHb k IHk
                 |R d IHd body IHb];
    intros owes Q w w' l p' Ho Hstep; simpl in Hstep.
  - discriminate.
  - discriminate.
  - destruct Ho as [Hturn Hk].
    destruct (do_op op w) as [x w1| |why] eqn:E; inversion Hstep; subst.
    + split; [|left; eapply do_op_goroutines; eassumption].
      exists (owes_after op owes). split; [apply Hk|].
      unfold store_in_turn, owes_after in *. simpl.
      destruct (stores_value op) eqn:Ev.
      * rewrite (stores_not_both op Ev). subst owes. reflexivity.
      * destruct (stores_stamp op) eqn:Es.
        -- subst owes. reflexivity.
        -- reflexivity.
    + split; [|left; reflexivity].
      exists owes. split; [exact I|reflexivity].
  - simpl in Ho.
    destruct (outcome_of callee) as [[x|why]|] eqn:E.
    + inversion Hstep; subst. apply outcome_of_finish in E. subst callee.
      simpl in Ho. split; [|left; reflexivity].
      exists owes. split; [exact Ho|reflexivity].
    + inversion Hstep; subst.
      split; [|left; reflexivity].
      exists owes. split; [exact I|reflexivity].
    + destruct (step callee w) as [[[l1 c1] w1]|] eqn:E1;
        inversion Hstep; subst.
      destruct (IHc _ _ _ _ _ _ Ho E1) as ((owes' & Ho' & Hn) & Hg).
      split; [|exact Hg]. exists owes'. split; assumption.
  - inversion Hstep; subst. destruct Ho as [Hb Hk]. split.
    + exists owes. split; [exact Hk|reflexivity].
    + right. exists body. split; [reflexivity|exact Hb].
  - destruct Ho as [Hb Hd].
    destruct (outcome_of body) as [o|] eqn:E.
    + inversion Hstep; subst. apply outcome_of_finish in E. subst body.
      split; [|left; reflexivity].
      exists owes. split; [|reflexivity].
      destruct o as [r|why]; simpl in *.
      * exact Hb.
      * apply Hd.
    + destruct (step body w) as [[[l1 b1] w1]|] eqn:E1;
        inversion Hstep; subst.
      destruct (IHb _ _ _ _ _ _ Hb E1) as ((owes' & Ho' & Hn) & Hg).
      split; [|exact Hg]. exists owes'. split; [|exact Hn].
      split; assumption.
Qed.

(** The bodies of the package store in turn. *)

Lemma ordered_update (ctx : Ctx) :
  ordered (update ctx) false (fun _ b => b = false).
Proof.
  unfold update. od_simpl. split; [exact I|]. intros r.
  destruct (snd r) as [e|]; od_simpl.
  - split; [exact I|]. intros o.
    destruct (ReturnLastGood o); od_simpl.
    + split; [exact I|]. intros v. destruct (isSome v); reflexivity.
    + reflexivity.
  - split; [reflexivity|]. intros _. split; [exact I|]. intros now.
    split; [reflexivity|]. intros _. reflexivity.
Qed.

Lemma ordered_deref (R : Type) (v : option T) (k : T -> Prog R)
    (owes : bool) (Q : R -> bool -> Prop) :
  (forall x : T, ordered (k x) owes Q) ->
  ordered (deref v k) owes Q.
Proof. destruct v as [x|]; simpl; auto. Qed.

Lemma ordered_unlock (owes : bool) :
  ordered (T:=T) (Err:=Err) (Ctx:=Ctx) (do Unlock ;; Ret tt) owes
          (fun _ _ => True).
Proof. od_simpl. split; [exact I|]. intros _. exact I. Qed.

Ltac od_unlock :=
  first [apply ordered_unlock | split; [exact I|intros _; exact I]].

Lemma ordered_backgroundRefresh :
  ordered backgroundRefresh false (fun _ _ => True).
Proof.
  unfold backgroundRefresh. od_simpl. split.
  - eapply ordered_consequence; [|apply ordered_update].
    intros err b _. od_unlock.
  - intros owes'. od_unlock.
Qed.

Lemma ordered_refreshAndLoad (ctx : Ctx) (Q : T * error -> bool -> Prop) :
  (forall r, Q r false) ->
  ordered (refreshAndLoad ctx) false Q.
Proof.
  intros HQ. unfold refreshAndLoad. od_simpl.
  eapply ordered_consequence; [|apply ordered_update].
  intros err b Hb. cbv beta in Hb. subst b.
  destruct err as [e|]; od_simpl.
  - apply HQ.
  - split; [exact I|]. intros v. apply ordered_deref. intros x. apply HQ.
Qed.

Lemma ordered_recheckAndRefresh (ctx : Ctx) (ttl0 : Duration)
    (Q : T * error -> bool -> Prop) :
  (forall r, Q r false) ->
  ordered (recheckAndRefresh ctx ttl0) false Q.
Proof.
  intros HQ. unfold recheckAndRefresh. od_simpl.
  split; [exact I|]. intros ms. split; [exact I|]. intros now.
  destruct (Sub now (UnixMilli ms) <? ttl0).
  - od_simpl. split; [exact I|]. intros v.
    destruct (isSome v).
    + apply ordered_deref. intros x. apply HQ.
    + apply ordered_refreshAndLoad. exact HQ.
  - apply ordered_refreshAndLoad. exact HQ.
Qed.

Lemma ordered_serveStale (v : option T) :
  ordered (serveStale v) false (fun _ _ => True).
Proof.
  unfold serveStale. od_simpl. split; [exact I|].
  intros locked. destruct locked; od_simpl.
  - split; [apply ordered_backgroundRefresh|].
    apply ordered_deref. intros x. exact I.
  - apply ordered_deref. intros x. exact I.
Qed.

Lemma ordered_lockedRefresh (ctx : Ctx) (ttl0 : Duration) :
  ordered (lockedRefresh ctx ttl0) false (fun _ _ => True).
Proof.
  unfold lockedRefresh. od_simpl. split; [exact I|]. intros _. split.
  - apply ordered_recheckAndRefresh. intros r. od_unlock.
  - intros owes'. od_unlock.
Qed.

Lemma ordered_GetWithCtx (ctx : Ctx) :
  ordered (GetWithCtx ctx) false (fun _ _ => True).
Proof.
  unfold GetWithCtx. od_simpl. split; [exact I|]. intros v.
  split; [exact I|]. intros ttl0.
  split; [exact I|]. intros vTime.
  split; [exact I|]. intros now.
  destruct (isSome v && (sub64 (Time_UnixMilli now) vTime
                         <? Milliseconds ttl0)).
  - apply ordered_deref. intros x. exact I.
  - od_simpl. split; [exact I|]. intros o.
    destruct (NoWait o && isSome v
              && (sub64 (Time_UnixMilli now) vTime
                  <? mul64 (Milliseconds ttl0) 2)).
    + apply ordered_serveStale.
    + apply ordered_lockedRefresh.
Qed.

(** Counting over the pool. *)

Lemma value_stores_app (tr : list Label) (l : Label) :
  value_stores (tr ++ [l]) = (value_stores tr + Nat.b2n (value_stored l))%nat.
Proof.
  unfold value_stores. rewrite filter_app, length_app. simpl.
  destruct (value_stored l); reflexivity.
Qed.

Lemma stamp_stores_app (tr : list Label) (l : Label) :
  stamp_stores (tr ++ [l]) = (stamp_stores tr + Nat.b2n (stamp_stored l))%nat.
Proof.
  unfold stamp_stores. rewrite filter_app, length_app. simpl.
  destruct (stamp_stored l); reflexivity.
Qed.

Lemma owing_app (l l' : list bool) :
  owing (l ++ l') = (owing l + owing l')%nat.
Proof. unfold owing. rewrite filter_app, length_app. reflexivity. Qed.

Lemma owing_set_nth (fs : list bool) :
  forall (n : nat) (b b' : bool),
    nth_error fs n = Some b ->
    (owing (set_nth n b' fs) + Nat.b2n b = owing fs + Nat.b2n b')%nat.
Proof.
  unfold owing.
  induction fs as [|a fs IH]; intros n b b' Hn.
  - destruct n; discriminate.
  - destruct n as [|n]; simpl in Hn.
    + inversion Hn; subst. simpl. destruct b, b'; simpl; lia.
    + specialize (IH n b b' Hn). simpl. destruct a; simpl; lia.
Qed.

Lemma Forall2_nth_error_l (A B : Type) (Rel : A -> B -> Prop)
    (l : list A) :
  forall (l' : list B) (n : nat) (x : A),
    Forall2 Rel l l' ->
    nth_error l n = Some x ->
    exists y : B, nth_error l' n = Some y /\ Rel x y.
Proof.
  induction l as [|a l IH]; intros l' n x HF Hn.
  - destruct n; discriminate.
  - inversion HF as [|a0 b l0 l1 Hab HF']; subst.
    destruct n as [|n]; simpl in Hn.
    + inversion Hn; subst. exists b. split; [reflexivity|exact Hab].
    + apply (IH l1 n x HF' Hn).
Qed.

Lemma Forall2_set_nth (A B : Type) (Rel : A -> B -> Prop) (l : list A) :
  forall (l' : list B) (n : nat) (x : A) (y : B),
    Forall2 Rel l l' ->
    Rel x y ->
    Forall2 Rel (set_nth n x l) (set_nth n y l').
Proof.
  induction l as [|a l IH]; intros l' n x y HF Hxy.
  - inversion HF; subst. constructor.
  - inversion HF as [|a0 b l0 l1 Hab HF']; subst.
    destruct n as [|n]; simpl.
    + constructor; assumption.
    + constructor; [exact Hab|]. apply IH; assumption.
Qed.

Lemma nth_error_app_left (A : Type) (l l' : list A) (n : nat) (x : A) :
  nth_error l n = Some x -> nth_error (l ++ l') n = Some x.
Proof.
  intros H. rewrite nth_error_app1; [exact H|].
  apply nth_error_Some. congruence.
Qed.

Lemma sched_step_pool_ordered (tid : Tid) (l : Label) (P P' : Pool)
    (tr : list Label) :
  pool_ordered tr P ->
  sched_step tid P = Some (l, P') ->
  pool_ordered (tr ++ [l]) P'.
Proof.
  intros (fc & fg & Hc & Hg & Hn) Hstep.
  destruct tid as [i|j]; simpl in Hstep.
  - destruct (nth_error (callers P) i) as [p|] eqn:En; [|discriminate].
    destruct (step p (shared P)) as [[[l1 p1] w1]|] eqn:Es; [|discriminate].
    inversion Hstep; subst. clear Hstep.
    destruct (@Forall2_nth_error_l _ _ _ _ _ i _ Hc En) as (b & Hb & Ho).
    destruct (@step_ordered _ _ _ _ _ _ _ _ Ho Es)
      as ((b' & Ho' & Hd) & Hgs).
    pose proof (@owing_set_nth fc i b b' Hb) as Hcount.
    destruct Hgs as [Hgs|(g & Hgs & Hog)].
    + exists (set_nth i b' fc), fg. simpl. split; [|split].
      * apply Forall2_set_nth; assumption.
      * rewrite Hgs. exact Hg.
      * rewrite value_stores_app, stamp_stores_app.
        destruct b, b', (stamp_stored l), (value_stored l);
          simpl in *; lia.
    + exists (set_nth i b' fc), (fg ++ [false]). simpl. split; [|split].
      * apply Forall2_set_nth; assumption.
      * rewrite Hgs. apply Forall2_app; [exact Hg|].
        constructor; [exact Hog|constructor].
      * rewrite value_stores_app, stamp_stores_app, owing_app.
        change (owing [false]) with 0%nat.
        destruct b, b', (stamp_stored l), (value_stored l);
          simpl in *; lia.
  - destruct (nth_error (goroutines (shared P)) j) as [g|] eqn:En;
      [|discriminate].
    destruct (step g (shared P)) as [[[l1 g1] w1]|] eqn:Es; [|discriminate].
    inversion Hstep; subst. clear Hstep.
    destruct (@Forall2_nth_error_l _ _ _ _ _ j _ Hg En) as (b & Hb & Ho).
    destruct (@step_ordered _ _ _ _ _ _ _ _ Ho Es)
      as ((b' & Ho' & Hd) & Hgs).
    destruct Hgs as [Hgs|(g2 & Hgs & Hog)].
    + pose proof (@owing_set_nth fg j b b' Hb) as Hcount.
      exists fc, (set_nth j b' fg). simpl. split; [|split].
      * exact Hc.
      * rewrite Hgs. apply Forall2_set_nth; assumption.
      * rewrite value_stores_app, stamp_stores_app.
        destruct b, b', (stamp_stored l), (value_stored l);
          simpl in *; lia.
    + pose proof (@owing_set_nth (fg ++ [false]) j b b'
                    (@nth_error_app_left _ fg [false] j b Hb)) as Hcount.
      rewrite owing_app in Hcount.
      change (owing [false]) with 0%nat in Hcount.
      exists fc, (set_nth j b' (fg ++ [false])). simpl. split; [|split].
      * exact Hc.
      * rewrite Hgs. apply Forall2_set_nth; [|exact Ho'].
        apply Forall2_app; [exact Hg|].
        constructor; [exact Hog|constructor].
      * rewrite value_stores_app, stamp_stores_app.
        destruct b, b', (stamp_stored l), (value_stored l);
          simpl in *; lia.
Qed.

Lemma reachable_pool_ordered (P0 P : Pool) (tr : list Label) :
  pool_ordered [] P0 -> reachable P0 tr P -> pool_ordered tr P.
Proof.
  intros H0 Hr. induction Hr as [|tr ls P P' Hr IH Hs].
  - exact H0.
  - destruct Hs as [tid l P P' Hs|ctx P].
    + eapply sched_step_pool_ordered; eassumption.
    + rewrite app_nil_r.
      destruct IH as (fc & fg & Hc & Hg & Hn).
      exists (fc ++ [false]), fg. simpl. split; [|split].
      * apply Forall2_app; [exact Hc|].
        constructor; [apply ordered_GetWithCtx|constructor].
      * exact Hg.
      * rewrite owing_app. change (owing [false]) with 0%nat. lia.
Qed.

Lemma pool_ordered_start (t : Cache) (e : Env) (clk : nat -> Time) :
  pool_ordered [] (start t e clk).
Proof.
  exists [], []. simpl. split; [constructor|]. split; [constructor|].
  reflexivity.
Qed.

(** C10.  Whenever [update] returns a nil error, a value is stored: the
    pointer the cache holds is not nil.  So no call of [GetWithCtx] ends
    in the panic of a nil dereference, whether it runs by itself (and
    waits for the mutex while the goroutines run) or interleaved in any
    way with other calls and goroutines, from a cache with nothing stored
    on. *)
Theorem C10_update_nil_error_means_value_stored :
  (forall (w w' : World) (ctx : Ctx),
     exec (update ctx) w = Done (Returned nil) w' ->
     val (cache w') <> None)
  /\ (forall (w w' : World) (ctx : Ctx) (o : Outcome (T * error)),
       run_call (GetWithCtx ctx) w = Some (o, w') ->
       o <> Panicked NilDeref)
  /\ (forall (t : Cache) (e : Env) (clk : nat -> Time) (tr : list Label)
            (P : Pool),
       reachable (start t e clk) tr P ->
       forall p : Prog (T * error),
         In p (callers P) -> outcome_of p <> Some (Panicked NilDeref)).
Proof.
  split; [|split].
  - intros w w' ctx Hx.
    assert (Hs : sound false w) by (intros H; discriminate).
    destruct (@exec_keeps_value _ (update ctx) false
                (fun err h => err = None -> h = true) w
                (keeps_value_update ctx false) Hs) as [_ Hr].
    rewrite Hx in Hr. simpl in Hr. destruct Hr as (has' & Hs' & Hq).
    apply Hs'. apply Hq. reflexivity.
  - intros w w' ctx o Hx. unfold run_call in Hx.
    assert (Hs : sound false w) by (intros H; discriminate).
    destruct (@exec_keeps_value _ (GetWithCtx ctx) false
                (fun _ _ => True) w
                (keeps_value_GetWithCtx ctx false) Hs) as [_ Hr].
    destruct (exec (GetWithCtx ctx) w) as [o1 w1|rest w1].
    + inversion Hx; subst. destruct o as [r|why]; simpl in Hr.
      * discriminate.
      * congruence.
    + simpl in Hr. destruct Hr as (has' & Hs' & Hk').
      assert (Hs2 : sound has' (run_goroutines w1)).
      { intros Hh. apply run_goroutines_val_stable. apply Hs'. exact Hh. }
      destruct (@exec_keeps_value _ rest has' (fun _ _ => True)
                  (run_goroutines w1) Hk' Hs2) as [_ Hr2].
      destruct (exec rest (run_goroutines w1)) as [o2 w2|rest2 w2];
        [|discriminate].
      inversion Hx; subst. destruct o as [r|why]; simpl in Hr2.
      * discriminate.
      * congruence.
  - intros t e clk tr P Hr p Hin Hout.
    pose proof (reachable_pool_ok (pool_ok_start t e clk) Hr)
      as (_ & Hc & _).
    rewrite Forall_forall in Hc. destruct (Hc p Hin) as (has & _ & Hk).
    apply outcome_of_finish in Hout. subst p. simpl in Hk.
    apply Hk. reflexivity.
Qed.

(** C7 (as amended).  The value and the timestamp are two atomics, each
    stored by itself, the value first.  In every interleaving of calls and
    goroutines, from a cache with nothing stored on, a timestamp is never
    stored ahead of its value: among the operations performed so far the
    stores of a timestamp are never more than the stores of a value, and
    whenever [lastUpdateMs] is not zero, [val] is not nil. *)
Theorem C7_timestamp_published_after_value (t : Cache) (e : Env)
    (clk : nat -> Time) (tr : list Label) (P : Pool) :
  reachable (start t e clk) tr P ->
  (stamp_stores tr <= value_stores tr)%nat
  /\ (lastUpdateMs (cache (shared P)) <> 0 ->
      val (cache (shared P)) <> None).
Proof.
  intros Hr. split.
  - destruct (reachable_pool_ordered (pool_ordered_start t e clk) Hr)
      as (fc & fg & _ & _ & Hn).
    lia.
  - pose proof (reachable_pool_ok (pool_ok_start t e clk) Hr) as (Hst & _).
    exact Hst.
Qed.

End Properties.

(** * The properties at work on the cache of integers *)

Import Scenario.

Ltac compare_numbers :=
  repeat split; intros; vm_compute; try reflexivity; try discriminate.

(** C1, the claim as stated fails: a cache made by [NewFromFunc] with a
    ttl of 100 ms and the counting refresh function is rebound by the
    first call of [InitOnce]. *)
Lemma C1_counterexample :
  binding (InitOnce (ms 200) lastGoodOpt (Some failing)
                    (NewFromFunc (ms 100) plain (Some counting)))
  = (ms 200, lastGoodOpt, Some failing)
  /\ ttl (InitOnce (ms 200) lastGoodOpt (Some failing)
                   (NewFromFunc (ms 100) plain (Some counting)))
     <> ttl (NewFromFunc (Env := Z) (ms 100) plain (Some counting)).
Proof. split; [reflexivity|]. vm_compute. discriminate. Qed.

(** C1 at work: a new cache is bound by [InitOnce] with a ttl of 100 ms;
    a later [InitOnce] with 200 ms, among calls of [GetWithCtx], changes
    nothing. *)
Lemma C1_witness :
  binding
    (cache
       (lifetime 0 background
          [EvGet caller; EvInitOnce (ms 200) lastGoodOpt (Some failing);
           EvGet caller; EvGoroutines]
          (with_cache (InitOnce (ms 100) noWait (Some counting))
                      (world (New Z nat nat Z) (frozen (ms 1000))))))
  = (ms 100, noWait, Some counting).
Proof.
  destruct (@C1_InitOnce_first_completed_wins Z 0 nat nat background Z
              (world (New Z nat nat Z) (frozen (ms 1000)))
              (ms 100) noWait (Some counting)
              [EvGet caller; EvInitOnce (ms 200) lastGoodOpt (Some failing);
               EvGet caller; EvGoroutines])
    as [H1 [H2 _]].
  rewrite H1. apply H2. reflexivity.
Defined.

(** C2, the claim as stated fails: [ReturnLastGood] is not set, the value
    7 is stored with an age of 150 ms, the ttl is 100 ms, the refresh
    function fails; with [NoWait] set the call returns 7 and a nil
    error. *)
Lemma C2_counterexample :
  let w := world (holding (ms 100) noWait failing 7 1000)
                 (frozen (ms 1150)) in
  val (cache w) = Some 7
  /\ ttl (cache w) <= age w
  /\ ReturnLastGood (opts (cache w)) = false
  /\ (forall (ctx : nat) (n : Z), snd (fst (failing ctx n)) = Some 42%nat)
  /\ returned (run_call get w) = Some (7, None)
  /\ returned (run_call get w) <> Some (0, Some 42%nat).
Proof. compare_numbers. Qed.

(** C2 at work: the value 7 is 150 ms old with a ttl of 100 ms and the
    refresh function fails with error 42; neither option is set, and the
    call returns the zero value with the error. *)
Lemma C2_witness :
  exists w' : ZWorld,
    run_call get (world (holding (ms 100) plain failing 7 1000)
                        (frozen (ms 1150)))
    = Some (Returned (0, Some 42%nat), w')
    /\ calls w' = [caller]
    /\ cache w' = holding (ms 100) plain failing 7 1000.
Proof.
  apply (@C2_failed_refresh_of_expired_value Z 0 nat nat background Z
           (world (holding (ms 100) plain failing 7 1000)
                  (frozen (ms 1150)))
           caller 7 failing 42%nat).
  - compare_numbers.
  - reflexivity.
  - reflexivity.
  - compare_numbers.
  - left. reflexivity.
  - reflexivity.
  - reflexivity.
Defined.

(** C3, the claim as stated fails: the ttl is 1.5 ms and the stored value
    is 1.2 ms old (one whole millisecond), which is less than ttl; with
    [NoWait] set the call starts a goroutine, which calls the refresh
    function. *)
Lemma C3_counterexample :
  let w := world (holding 1500000 noWait counting 7 1000)
                 (frozen 1001200000) in
  val (cache w) = Some 7
  /\ age w < ttl (cache w)
  /\ returned (run_call get w) = Some (7, None)
  /\ goroutines (world_after (run_call get w) w)
     = [backgroundRefresh Z nat background]
  /\ calls (run_goroutines (world_after (run_call get w) w)) = [background].
Proof. compare_numbers. Qed.

(** C3 at work: the value 7 is 50 ms old with a ttl of 100 ms. *)
Lemma C3_witness :
  exec get (world (holding (ms 100) plain counting 7 1000)
                  (frozen (ms 1050)))
  = Done (Returned (7, None))
         (tick (world (holding (ms 100) plain counting 7 1000)
                      (frozen (ms 1050)))).
Proof.
  apply (@C3_fresh_value_served_without_refresh Z 0 nat nat background Z
           (world (holding (ms 100) plain counting 7 1000)
                  (frozen (ms 1050)))
           caller 7).
  - reflexivity.
  - vm_compute. reflexivity.
Defined.

(** C4 at work, on the call that waits. *)
Lemma C4_witness :
  returned (run_call get waiting_world) = Some (2, None)
  /\ calls_after (run_call get waiting_world) = [background].
Proof.
  destruct (@C4_recheck_under_the_guard Z 0 nat nat background Z
              waiting_world caller) as [H _].
  - reflexivity.
  - reflexivity.
  - reflexivity.
  - destruct (H 2) as [Hr Hc].
    + reflexivity.
    + vm_compute. reflexivity.
    + unfold get. rewrite Hr. split; reflexivity.
Defined.

(** C5, the claim as stated fails: [NoWait] is set, the ttl is 1.5 ms and
    the stored value 7 is 2.5 ms old, between ttl and twice ttl; the call
    refreshes the value itself, with the caller's context, and returns
    the new value 2. *)
Lemma C5_counterexample :
  let w := world (holding 1500000 noWait counting 7 1000)
                 (frozen 1002500000) in
  val (cache w) = Some 7
  /\ NoWait (opts (cache w)) = true
  /\ ttl (cache w) <= age w < 2 * ttl (cache w)
  /\ returned (run_call get w) = Some (2, None)
  /\ calls_after (run_call get w) = [caller]
  /\ goroutines (world_after (run_call get w) w) = [].
Proof. compare_numbers. Qed.

(** C5 at work: with [NoWait], the value 7 is 150 ms old with a ttl of
    100 ms and the mutex is free. *)
Lemma C5_witness :
  exec get (world (holding (ms 100) noWait counting 7 1000)
                  (frozen (ms 1150)))
  = Done (Returned (7, None))
         (spawn (backgroundRefresh Z nat background)
                (with_cache (set_updating true)
                   (tick (world (holding (ms 100) noWait counting 7 1000)
                                (frozen (ms 1150)))))).
Proof.
  destruct (@C5_stale_value_served_one_background_refresh
              Z 0 nat nat background Z
              (world (holding (ms 100) noWait counting 7 1000)
                     (frozen (ms 1150)))
              caller 7) as [H _].
  - reflexivity.
  - reflexivity.
  - compare_numbers.
  - apply H. reflexivity.
Defined.

(** C6, the claim as stated fails: [NoWait] is not set, the stored value 7
    is 150 ms old with a ttl of 100 ms, and the refresh function fails
    with error 42; with [ReturnLastGood] set the call returns the stale
    value 7 with a nil error, not what the refresh gave. *)
Lemma C6_counterexample :
  let w := world (holding (ms 100) lastGoodOpt failing 7 1000)
                 (frozen (ms 1150)) in
  NoWait (opts (cache w)) = false
  /\ ttl (cache w) <= age w
  /\ fst (failing caller (env w)) = (0, Some 42%nat)
  /\ calls_after (run_call get w) = [caller]
  /\ returned (run_call get w) = Some (7, None)
  /\ val (cache w) = Some 7.
Proof. compare_numbers. Qed.

(** C6 at work: with [NoWait] not set, the value 7 is 150 ms old with a
    ttl of 100 ms; the call refreshes it and returns 2. *)
Lemma C6_witness :
  exists w' : ZWorld,
    run_call get (world (holding (ms 100) plain counting 7 1000)
                        (frozen (ms 1150)))
    = Some (Returned (2, None), w')
    /\ calls w' = [caller]
    /\ updating (cache w') = false.
Proof.
  apply (@C6_synchronous_refresh_with_callers_context
           Z 0 nat nat background Z
           (world (holding (ms 100) plain counting 7 1000)
                  (frozen (ms 1150)))
           caller counting).
  - compare_numbers.
  - reflexivity.
  - reflexivity.
  - right. right. compare_numbers.
Defined.

(** C7, the claim as stated fails: in the interleaving [torn_schedule] of
    two calls, the first call loads the value 1 and the timestamp 2000,
    a pair the cache never held: it held 1 with 1000, then 2 with 1000,
    then 2 with 2000.  The call takes 1 for fresh and returns it. *)
Lemma C7_counterexample :
  let tr := run_sched torn_schedule torn_pool in
  observed 0 tr = (Some (Some 1), Some 2000)
  /\ existsb (pair_eqb (Some 1, 2000)) (held_during torn_pool tr) = false
  /\ existsb (pair_eqb (Some 1, 1000)) (held_during torn_pool tr) = true
  /\ existsb (pair_eqb (Some 2, 1000)) (held_during torn_pool tr) = true
  /\ existsb (pair_eqb (Some 2, 2000)) (held_during torn_pool tr) = true
  /\ map (@outcome_of _ _ _ _)
         (callers (after_sched torn_schedule torn_pool))
     = [Some (Returned (1, None)); Some (Returned (2, None))]
  /\ reachable 0 background torn_pool
               (sched_labels torn_schedule torn_pool)
               (after_sched torn_schedule torn_pool).
Proof.
  intros tr. split; [vm_compute; reflexivity|].
  split; [vm_compute; reflexivity|].
  split; [vm_compute; reflexivity|].
  split; [vm_compute; reflexivity|].
  split; [vm_compute; reflexivity|].
  split; [vm_compute; reflexivity|].
  apply (@after_sched_reachable Z 0 nat nat background Z
           torn_schedule torn_pool torn_pool []).
  apply reachable_start.
Qed.

(** C7 at work, on the first call over a new cache. *)
Lemma C7_witness :
  (stamp_stores first_call_labels <= value_stores first_call_labels)%nat
  /\ lastUpdateMs (cache (shared first_call_pool)) = 1000
  /\ val (cache (shared first_call_pool)) <> None.
Proof.
  destruct (@C7_timestamp_published_after_value Z 0 nat nat background Z
              (NewFromFunc (ms 100) plain (Some counting)) 0
              (frozen (ms 1000)) first_call_labels first_call_pool)
    as [H1 H2].
  - apply (@after_sched_reachable Z 0 nat nat background Z
             (repeat (Caller 0) 20) _ first_call_start []).
    apply (@reachable_step Z 0 nat nat background Z _ [] []
             (start (NewFromFunc (ms 100) plain (Some counting)) 0
                    (frozen (ms 1000)))).
    + apply reachable_start.
    + apply pstep_arrive.
  - split; [exact H1|]. split; [reflexivity|].
    apply H2. vm_compute. discriminate.
Defined.

(** C8 at work: [ReturnLastGood] is set, 7 is stored, the refresh function
    fails; [update] returns nil and the cache is as it was. *)
Lemma C8_witness :
  exists w' : ZWorld,
    exec (update Z nat caller)
         (world (holding (ms 100) lastGoodOpt failing 7 1000)
                (frozen (ms 1150)))
    = Done (Returned None) w'
    /\ val (cache w') = Some 7
    /\ lastUpdateMs (cache w') = 1000
    /\ cache w' = holding (ms 100) lastGoodOpt failing 7 1000
    /\ calls w' = [caller].
Proof.
  apply (@C8_failed_update_mutates_nothing Z nat nat Z
           (world (holding (ms 100) lastGoodOpt failing 7 1000)
                  (frozen (ms 1150)))
           caller failing 42%nat).
  - reflexivity.
  - reflexivity.
Defined.

(** C9, the claim as stated fails: the ttl is half a millisecond and the
    stored value 0.2 ms old; the call returns the stored value and the
    refresh function is not called. *)
Lemma C9_counterexample :
  let w := world (holding 500000 plain counting 7 1000)
                 (frozen 1000200000) in
  0 < ttl (cache w) < Millisecond
  /\ val (cache w) = Some 7
  /\ returned (run_call get w) = Some (7, None)
  /\ calls_after (run_call get w) = []
  /\ goroutines (world_after (run_call get w) w) = [].
Proof. compare_numbers. Qed.

(** C9 at work: with a ttl of half a millisecond the call goes to the
    synchronous refresh; a ttl of 1.5 ms has a fresh window of 1 ms. *)
Lemma C9_witness :
  exec get (world (holding 500000 plain counting 7 1000)
                  (frozen 1000200000))
  = exec (lockedRefresh 0 nat caller 500000)
         (tick (world (holding 500000 plain counting 7 1000)
                      (frozen 1000200000)))
  /\ Milliseconds 1500000 * 1000000 < 1500000.
Proof.
  destruct (@C9_ttl_truncated_to_milliseconds Z 0 nat nat background Z
              (world (holding 500000 plain counting 7 1000)
                     (frozen 1000200000))
              caller) as [H1 _].
  - compare_numbers.
  - destruct (@C9_ttl_truncated_to_milliseconds Z 0 nat nat background Z
                (world (holding 1500000 plain counting 7 1000)
                       (frozen 1001200000))
                caller) as [_ H2].
    + compare_numbers.
    + split.
      * apply H1. compare_numbers.
      * apply H2; compare_numbers.
Defined.

(** C10 at work: an [update] that returns nil after a failed refresh
    leaves the value stored; a call on a cache whose refresh function fails
    does not end in a nil dereference. *)
Lemma C10_witness :
  val (cache (final (exec (update Z nat caller)
                          (world (holding (ms 100) lastGoodOpt failing 7 1000)
                                 (frozen (ms 1150))))))
  <> None
  /\ match run_call get (world (NewFromFunc (ms 100) lastGoodOpt
                                            (Some failing))
                               (frozen (ms 1000))) with
     | Some (o, _) => o <> Panicked NilDeref
     | None => False
     end.
Proof.
  destruct (@C10_update_nil_error_means_value_stored
              Z 0 nat nat background Z) as [H1 [H2 _]].
  split.
  - apply (H1 (world (holding (ms 100) lastGoodOpt failing 7 1000)
                     (frozen (ms 1150)))
              _ caller).
    reflexivity.
  - destruct (run_call get (world (NewFromFunc (ms 100) lastGoodOpt
                                               (Some failing))
                                  (frozen (ms 1000))))
      as [[o w']|] eqn:E.
    + exact (H2 _ _ _ _ E).
    + vm_compute in E. discriminate.
Defined.
